(** * Asset-ordering demonstration script (src/demo.ts): model and properties

    The script builds the parameters of a [transferAssetsUsingTypeAndThen]
    extrinsic with the two asset entries in either order, submits each variant
    as a dry run to a remote node and prints the outcome.

    The model follows the source:
    - JavaScript values, with objects and arrays living in a heap so that
      reference identity ([==] on objects) and the absence of writes to the
      module constants can be stated;
    - object literals as trees that are allocated when they are evaluated;
    - the remote node, the client library and the console as an interface the
      program calls, every interaction being recorded in a trace;
    - [try]/[catch], thrown errors and [process.exit] as outcomes of a small
      state monad.

    The text of the printed lines is that of the source file, byte for byte:
    a string is the sequence of the bytes of its UTF-8 encoding. *)

From stdpp Require Import base option list strings gmap pretty.

Local Open Scope Z_scope.

Set Warnings "-register-all".

(** ** JavaScript values and the heap *)

(** Heap addresses. The heap is the list of objects allocated so far, the
    address of an object being its position: allocation appends. *)
Abbreviation loc := nat.

(** The values the script handles. Numbers are the integral ones (every number
    in the source is an integer). *)
Inductive value :=
| VUndefined
| VNull
| VBool (b : bool)
| VNum (n : Z)
| VStr (s : string)
| VRef (l : loc).

(** A heap object is a plain object (its own properties, in insertion order)
    or an array. *)
Inductive hobj :=
| Obj (props : list (string * value))
| Arr (elems : list value).

Abbreviation heap := (list hobj).

#[global] Instance value_eq_dec : EqDecision value.
Proof. solve_decision. Defined.

#[global] Instance hobj_eq_dec : EqDecision hobj.
Proof. solve_decision. Defined.

(** ** Object literals *)

(** An object or array literal of the source: a tree whose leaves are values
    that already exist (primitives, or references held in variables). *)
Inductive lit :=
| LVal (v : value)
| LObj (props : list (string * lit))
| LArr (elems : list lit).

Definition lstr (s : string) : lit := LVal (VStr s).
Definition lnum (n : Z) : lit := LVal (VNum n).

(** Evaluating the components of a literal from left to right, each in the
    heap the previous one left. *)
Fixpoint alloc_seq {A B : Type} (f : A → heap → B * heap) (xs : list A) (h : heap)
    : list B * heap :=
  match xs with
  | [] => ([], h)
  | x :: xs' =>
      let '(y, h1) := f x h in
      let '(ys, h2) := alloc_seq f xs' h1 in
      (y :: ys, h2)
  end.

(** Evaluating a literal allocates one fresh heap object per [{...}] and
    [[...]], after its components, and yields the reference to the outermost
    one. Nothing already in the heap is touched. *)
Fixpoint alloc_lit (t : lit) (h : heap) : value * heap :=
  match t with
  | LVal v => (v, h)
  | LObj props =>
      let '(kvs, h') :=
        alloc_seq (λ kt h, let '(v, h1) := alloc_lit kt.2 h in ((kt.1, v), h1)) props h in
      (VRef (length h'), h' ++ [Obj kvs])
  | LArr elems =>
      let '(vs, h') := alloc_seq alloc_lit elems h in
      (VRef (length h'), h' ++ [Arr vs])
  end.

(** [represents h v t]: read through heap [h], value [v] has the shape of the
    literal [t]: the same keys in the same order, the same elements in the same
    order, and at the leaves the very same values (for a reference, the same
    object). *)
Inductive represents (h : heap) : value → lit → Prop :=
| rep_val v : represents h v (LVal v)
| rep_obj l kvs props :
    h !! l = Some (Obj kvs) →
    Forall2 (λ kv kt, kv.1 = kt.1 ∧ represents h kv.2 kt.2) kvs props →
    represents h (VRef l) (LObj props)
| rep_arr l vs elems :
    h !! l = Some (Arr vs) →
    Forall2 (represents h) vs elems →
    represents h (VRef l) (LArr elems).

(** ** Module constants (demo.ts, lines 20-65) *)

Definition WUD_ASSET_lit : lit :=
  LObj [ ("token", lstr "0x5fdcd48f09fb67de3d202cd854b372aec1100ed5");
         ("name", lstr "GAVUN WUD");
         ("symbol", lstr "WUD");
         ("decimals", lnum 10);
         ("location",
           LObj [ ("parents", lnum 0);
                  ("interior",
                    LObj [ ("x2", LArr [ LObj [("palletInstance", lnum 50)];
                                         LObj [("generalIndex", lnum 31337)] ]) ]) ]);
         ("assetId", lstr "31337") ].

Definition KSM_ASSET_lit : lit :=
  LObj [ ("token", lstr "0x12bbfdc9e813614eef8dc8a2560b0efbeaf7c2ab");
         ("name", lstr "Kusama");
         ("symbol", lstr "KSM");
         ("decimals", lnum 12);
         ("location",
           LObj [ ("parents", lnum 2);
                  ("interior",
                    LObj [ ("x1", LArr [ LObj [("globalConsensus",
                                                 LObj [("kusama", LVal VNull)])] ]) ]) ]) ].

Definition NATIVE_TOKEN_LOCATION_lit : lit :=
  LObj [ ("parents", lnum 1); ("interior", lstr "Here") ].

(** The [const] bindings of the module. A binding cannot be reassigned; the
    objects the bindings refer to live in the heap. *)
Record Bindings := {
  WUD_ASSET : value;
  KSM_ASSET : value;
  NATIVE_TOKEN_LOCATION : value;
  KUSAMA_ASSET_HUB_PARA_ID : value;
}.

(** Loading the module evaluates the four declarations in source order. *)
Definition module_init (h : heap) : Bindings * heap :=
  let '(wud, h1) := alloc_lit WUD_ASSET_lit h in
  let '(ksm, h2) := alloc_lit KSM_ASSET_lit h1 in
  let '(native, h3) := alloc_lit NATIVE_TOKEN_LOCATION_lit h2 in
  ({| WUD_ASSET := wud; KSM_ASSET := ksm; NATIVE_TOKEN_LOCATION := native;
      KUSAMA_ASSET_HUB_PARA_ID := VNum 1000 |}, h3).

(** The bindings and the heap right after the module is loaded. *)
Definition M0 : Bindings := Eval vm_compute in fst (module_init []).
Definition H0 : heap := Eval vm_compute in snd (module_init []).

(** ** Built-in conversions of the language *)

(** Plain data as [toHuman()] returns it and [JSON.stringify] prints it. *)
Inductive AnyJson :=
| JNull
| JBool (b : bool)
| JNum (n : Z)
| JStr (s : string)
| JArr (elems : list AnyJson)
| JObj (props : list (string * AnyJson)).

(** The built-ins of the JavaScript runtime the script relies on and does not
    define. [StringToNumber] answers [None] for NaN; the text between square
    brackets is not a numeric literal. *)
Class JSBuiltins := {
  StringToNumber : string → option Z;
  StringToNumber_object : StringToNumber "[object Object]" = None;
  Number_toString : Z → string;
  Array_toString : heap → list value → string;
  JSON_stringify : AnyJson → string;
}.

(** What is thrown, or given as the reason of a rejected promise: it can be
    any value. The script does one thing with a value it catches, it reads
    [message] of it (lines 204, 235 and 269); the handler of the last
    statement prints the value itself (line 277). Reading a property of
    [undefined] or of [null] throws; any other value is given here by what
    reading its [message] yields, which is [undefined] when the value has no
    such property. *)
Inductive thrown :=
| ThrownUndefined
| ThrownNull
| Thrown (message : value).

#[global] Instance thrown_eq_dec : EqDecision thrown.
Proof. solve_decision. Defined.

(** A [TypeError] of the runtime: an object whose [message] is a string. *)
Definition TypeError (msg : string) : thrown := Thrown (VStr msg).

(** [error.message], for a caught value [error]. *)
Definition read_message (error : thrown) : thrown + value :=
  match error with
  | ThrownUndefined =>
      inl (TypeError "Cannot read properties of undefined (reading 'message')")
  | ThrownNull =>
      inl (TypeError "Cannot read properties of null (reading 'message')")
  | Thrown message => inr message
  end.

Section Language.
Context `{JSBuiltins}.

(** [ToPrimitive] of an object: a plain object has the inherited [toString],
    an array joins its elements. *)
Definition ToPrimitive (h : heap) (v : value) : value :=
  match v with
  | VRef l =>
      match h !! l with
      | Some (Arr vs) => VStr (Array_toString h vs)
      | _ => VStr "[object Object]"
      end
  | _ => v
  end.

(** [ToString], as a template literal applies it to [${...}]. *)
Definition ToString (h : heap) (v : value) : string :=
  match v with
  | VUndefined => "undefined"
  | VNull => "null"
  | VBool true => "true"
  | VBool false => "false"
  | VNum n => Number_toString n
  | VStr s => s
  | VRef _ => match ToPrimitive h v with VStr s => s | _ => "" end
  end.

(** [x == y] between [undefined], [null], numbers and strings. *)
Definition prim_loose_eq (x y : value) : bool :=
  match x, y with
  | VUndefined, VUndefined | VUndefined, VNull
  | VNull, VUndefined | VNull, VNull => true
  | VNum a, VNum b => bool_decide (a = b)
  | VStr a, VStr b => bool_decide (a = b)
  | VNum a, VStr s => match StringToNumber s with Some b => bool_decide (a = b) | None => false end
  | VStr s, VNum b => match StringToNumber s with Some a => bool_decide (a = b) | None => false end
  | _, _ => false
  end.

Definition bool_ToNumber (v : value) : value :=
  match v with
  | VBool true => VNum 1
  | VBool false => VNum 0
  | _ => v
  end.

(** The abstract equality comparison [x == y] (IsLooselyEqual): operands of
    the same type compare strictly, two objects by identity; a boolean is first
    turned into a number; an object facing a number or a string is first
    turned into a primitive. *)
Definition loose_eq (h : heap) (x y : value) : bool :=
  match x, y with
  | VRef a, VRef b => bool_decide (a = b)
  | VBool a, VBool b => bool_decide (a = b)
  | _, _ =>
      let x1 := bool_ToNumber x in
      let y1 := bool_ToNumber y in
      match x1, y1 with
      | VNum _, VRef _ | VStr _, VRef _ => prim_loose_eq x1 (ToPrimitive h y1)
      | VRef _, VNum _ | VRef _, VStr _ => prim_loose_eq (ToPrimitive h x1) y1
      | VRef _, _ | _, VRef _ => false
      | _, _ => prim_loose_eq x1 y1
      end
  end.

(** Own property [k] of a property list; the first binding of the key. *)
Fixpoint assoc (k : string) (kvs : list (string * value)) : option value :=
  match kvs with
  | [] => None
  | (k', v) :: kvs' => if decide (k = k') then Some v else assoc k kvs'
  end.

(** [v.k]: a [TypeError] on [undefined] and [null]; the own property of a
    plain object; [undefined] for anything else (inherited and indexed
    properties are not part of the model). *)
Definition read_prop (h : heap) (v : value) (k : string) : thrown + value :=
  match v with
  | VUndefined =>
      inl (TypeError ("Cannot read properties of undefined (reading '" +:+ k +:+ "')"))
  | VNull =>
      inl (TypeError ("Cannot read properties of null (reading '" +:+ k +:+ "')"))
  | VRef l =>
      match h !! l with
      | Some (Obj kvs) => inr (default VUndefined (assoc k kvs))
      | _ => inr VUndefined
      end
  | _ => inr VUndefined
  end.

End Language.

(** ** The client library's result types *)

(** A codec value, of which the script only calls [toHuman()]. *)
Record Codec := { toHuman : AnyJson }.

Inductive Result (T E : Type) :=
| Ok (t : T)
| Err (e : E).
Arguments Ok {T E} t.
Arguments Err {T E} e.

Definition isOk {T E} (r : Result T E) : bool :=
  match r with Ok _ => true | Err _ => false end.

(** [asOk] and [asErr] throw on the wrong variant. *)
Definition asOk {T E} (r : Result T E) : thrown + T :=
  match r with
  | Ok t => inr t
  | Err _ => inl (TypeError "Cannot extract Ok value from Err result, check isOk first")
  end.

Definition asErr {T E} (r : Result T E) : thrown + E :=
  match r with
  | Err e => inr e
  | Ok _ => inl (TypeError "Cannot extract Error value from Ok result, check isErr first")
  end.

Record CallDryRunEffects := { executionResult : Result Codec Codec }.

Definition DryRunResult := Result CallDryRunEffects Codec.

(** Handles of the objects the client library hands out. *)
Definition Provider := nat.
Definition Api := nat.
Definition Extrinsic := nat.

(** ** The outside world *)

(** What the script calls and does not define: the [WsProvider] constructor,
    [ApiPromise.create], the extrinsic constructor
    [api.tx.polkadotXcm.transferAssetsUsingTypeAndThen], the runtime call
    [api.call.dryRunApi.dryRunCall] and [api.disconnect]. Each may fail, with
    any value, and each may depend on, and change, the state [W] of the world
    (the node, the network). The calls that receive objects of the script read
    them in the heap; they do not write to it. *)
Class Remote (W : Type) := {
  WsProvider_new : string → W → (thrown + Provider) * W;
  ApiPromise_create : Provider → W → (thrown + Api) * W;
  transferAssetsUsingTypeAndThen : Api → heap → list value → W → (thrown + Extrinsic) * W;
  dryRunCall : Api → heap → value → Extrinsic → Z → W → (thrown + DryRunResult) * W;
  disconnect : Api → W → (thrown + unit) * W;
}.

Inductive request :=
| ReqWsProvider (endpoint : string)
| ReqCreate (p : Provider)
| ReqTransfer (a : Api) (args : list value)
| ReqDryRunCall (a : Api) (origin : value) (tx : Extrinsic) (version : Z)
| ReqDisconnect (a : Api).

Inductive reply :=
| RepProvider (p : Provider)
| RepApi (a : Api)
| RepExtrinsic (tx : Extrinsic)
| RepDryRun (r : DryRunResult)
| RepUnit.

(** An argument of [console.log] or [console.error]: a string the script
    built, a value it read, or a value it caught. *)
Inductive printed :=
| PStr (s : string)
| PVal (v : value)
| PErr (e : thrown).

#[global] Instance printed_eq_dec : EqDecision printed.
Proof. solve_decision. Defined.

(** What an execution does that can be observed from outside, in order. A
    synchronous call is followed by [EvReturned] or [EvThrew]; an awaited
    asynchronous call leaves a pending promise, and the caller resumes at
    [EvFulfilled] or [EvRejected]. *)
Inductive event :=
| EvLog (args : list printed)
| EvError (args : list printed)
| EvCall (r : request)
| EvReturned (r : reply)
| EvThrew (e : thrown)
| EvAsyncCall (r : request)
| EvFulfilled (r : reply)
| EvRejected (e : thrown)
| EvExit (code : Z).

(** ** Computations *)

Section Program.
Context `{JSBuiltins} {W : Type} `{Remote W}.

Record state := State { st_heap : heap; st_world : W }.

(** A computation returns, throws, or ends the process. *)
Inductive outcome (A : Type) :=
| Ret (a : A)
| Throw (e : thrown)
| Exit (code : Z).
#[global] Arguments Ret {A} a.
#[global] Arguments Throw {A} e.
#[global] Arguments Exit {A} code.

Record ran (A : Type) := Ran { out : outcome A; final : state; trace : list event }.
#[global] Arguments Ran {A} out final trace.
#[global] Arguments out {A} r.
#[global] Arguments final {A} r.
#[global] Arguments trace {A} r.

Definition M (A : Type) : Type := state → ran A.

Definition ret {A} (a : A) : M A := λ s, Ran (Ret a) s [].

Definition throw {A} (e : thrown) : M A := λ s, Ran (Throw e) s [].

Definition bind {A B} (m : M A) (k : A → M B) : M B := λ s,
  match m s with
  | Ran (Ret a) s1 t1 =>
      match k a s1 with
      | Ran o s2 t2 => Ran o s2 (t1 ++ t2)
      end
  | Ran (Throw e) s1 t1 => Ran (Throw e) s1 t1
  | Ran (Exit c) s1 t1 => Ran (Exit c) s1 t1
  end.

(** [try { m } catch (e) { handler e }]. [process.exit] is not caught. *)
Definition try_catch {A} (m : M A) (handler : thrown → M A) : M A := λ s,
  match m s with
  | Ran (Throw e) s1 t1 =>
      match handler e s1 with
      | Ran o s2 t2 => Ran o s2 (t1 ++ t2)
      end
  | r => r
  end.

Definition lift {A} (r : thrown + A) : M A :=
  match r with
  | inl e => throw e
  | inr a => ret a
  end.

Definition emit (e : event) : M unit := λ s, Ran (Ret tt) s [e].

Definition get_heap : M heap := λ s, Ran (Ret (st_heap s)) s [].

(** Evaluating an object literal. *)
Definition new (t : lit) : M value := λ s,
  let '(v, h') := alloc_lit t (st_heap s) in
  Ran (Ret v) (State h' (st_world s)) [].

(** Reading [v.k]. *)
Definition get_prop (v : value) (k : string) : M value := λ s,
  match read_prop (st_heap s) v k with
  | inl e => Ran (Throw e) s []
  | inr x => Ran (Ret x) s []
  end.

Definition console_log (args : list printed) : M unit := emit (EvLog args).
Definition console_error (args : list printed) : M unit := emit (EvError args).

Definition process_exit {A} (code : Z) : M A := λ s, Ran (Exit code) s [EvExit code].

(** A synchronous call of the library. *)
Definition call {A} (q : request) (f : W → (thrown + A) * W) (rep : A → reply) : M A := λ s,
  match f (st_world s) with
  | (inr a, w') => Ran (Ret a) (State (st_heap s) w') [EvCall q; EvReturned (rep a)]
  | (inl e, w') => Ran (Throw e) (State (st_heap s) w') [EvCall q; EvThrew e]
  end.

(** [await f(...)]: the call is made, and the function resumes when the
    promise is settled, with its value or by throwing its reason. *)
Definition await {A} (q : request) (f : W → (thrown + A) * W) (rep : A → reply) : M A := λ s,
  match f (st_world s) with
  | (inr a, w') => Ran (Ret a) (State (st_heap s) w') [EvAsyncCall q; EvFulfilled (rep a)]
  | (inl e, w') => Ran (Throw e) (State (st_heap s) w') [EvAsyncCall q; EvRejected e]
  end.

#[global] Instance M_ret : MRet M := @ret.
#[global] Instance M_bind : MBind M := λ A B k m, bind m k.

End Program.

Arguments state : clear implicits.
Arguments ran : clear implicits.
Arguments M : clear implicits.

(** ** The script (demo.ts, lines 67-280) *)

(** The type ["token-first" | "dot-first"] of the order flag. *)
Inductive AssetOrder :=
| token_first
| dot_first.

#[global] Instance AssetOrder_eq_dec : EqDecision AssetOrder.
Proof. solve_decision. Defined.

(** The literal [createDummyXCM] returns (lines 71-92). *)
Definition createDummyXCM_lit (beneficiary : string) : lit :=
  LObj [ ("v4", LArr [
    LObj [ ("DepositAsset", LObj [
      ("assets", LObj [ ("Wild", LObj [ ("AllCounted", lstr "2") ]) ]);
      ("beneficiary", LObj [
        ("parents", lnum 0);
        ("interior", LObj [ ("x1", LArr [
          LObj [ ("AccountId32", LObj [ ("network", LVal VNull);
                                        ("id", lstr beneficiary) ]) ] ]) ]) ]) ]) ] ]) ].

(** The literal bound to [destination] (lines 106-111). *)
Definition destination_lit : lit :=
  LObj [ ("v4", LObj [
    ("parents", lnum 2);
    ("interior", LObj [ ("x2", LArr [
      LObj [ ("GlobalConsensus", LObj [ ("Kusama", LVal VNull) ]) ];
      LObj [ ("parachain", LVal (KUSAMA_ASSET_HUB_PARA_ID M0)) ] ]) ]) ]) ].

(** The literal bound to [feeAsset] (lines 149-151). *)
Definition feeAsset_lit : lit := LObj [ ("v4", LVal (NATIVE_TOKEN_LOCATION M0)) ].

(** The origin passed to [dryRunCall] (lines 189 and 220). *)
Definition origin_lit (testAccount : string) : lit :=
  LObj [ ("system", LObj [ ("signed", lstr testAccount) ]) ].

(** ["=".repeat(n)] *)
Fixpoint String_repeat (s : string) (n : nat) : string :=
  match n with
  | O => ""
  | S n' => s +:+ String_repeat s n'
  end.

Section Script.
Context `{JSBuiltins} {W : Type} `{Remote W}.

Definition createDummyXCM (beneficiary : string) : M W value :=
  new (createDummyXCM_lit beneficiary).

(** [createTransferExtrinsic] (lines 98-164). *)
Definition createTransferExtrinsic (api : Api) (tokenLocation : value)
    (amount destFee : string) (assetOrder : AssetOrder) (beneficiary : string)
    : M W Extrinsic :=
  destination ← new destination_lit;
  ksm_location ← get_prop (KSM_ASSET M0) "location";
  h ← get_heap;
  let reserveType :=
    if loose_eq h tokenLocation ksm_location
    then "DestinationReserve" else "LocalReserve" in
  assets ←
    (if decide (assetOrder = token_first) then
       new (LObj [ ("v4", LArr [
         LObj [ ("id", LVal tokenLocation);
                ("fun", LObj [ ("Fungible", lstr amount) ]) ];
         LObj [ ("id", LVal (NATIVE_TOKEN_LOCATION M0));
                ("fun", LObj [ ("Fungible", lstr destFee) ]) ] ]) ])
     else
       new (LObj [ ("v4", LArr [
         LObj [ ("id", LVal (NATIVE_TOKEN_LOCATION M0));
                ("fun", LObj [ ("Fungible", lstr destFee) ]) ];
         LObj [ ("id", LVal tokenLocation);
                ("fun", LObj [ ("Fungible", lstr amount) ]) ] ]) ]));
  feeAsset ← new feeAsset_lit;
  customXcm ← createDummyXCM beneficiary;
  h ← get_heap;
  let args := [ destination; assets; VStr reserveType; feeAsset;
                VStr "LocalReserve"; customXcm; VStr "Unlimited" ] in
  call (ReqTransfer api args) (transferAssetsUsingTypeAndThen api h args) RepExtrinsic.

(** The body of each [try] block of [testAssetOrdering] (lines 188-202 and
    219-233); [label] is ["token-first"] or ["DOT-first"]. *)
Definition dryRunAndReport (api : Api) (asset : value) (testAccount : string)
    (tx : Extrinsic) (label : string) : M W unit :=
  origin ← new (origin_lit testAccount);
  h ← get_heap;
  dryRunResult ← await (ReqDryRunCall api origin tx 4)
                       (dryRunCall api h origin tx 4) RepDryRun;
  success ←
    (if isOk dryRunResult
     then ok ← lift (asOk dryRunResult); mret (isOk (executionResult ok))
     else mret false);
  symbol ← get_prop asset "symbol";
  h ← get_heap;
  console_log [ PStr ("   " +:+ (if success then "âœ…" else "âŒ") +:+ " "
                      +:+ ToString h symbol +:+ " " +:+ label +:+ ": "
                      +:+ (if success then "SUCCESS" else "FAILED")) ];;
  if negb success then
    error ←
      (if isOk dryRunResult
       then ok ← lift (asOk dryRunResult);
            e ← lift (asErr (executionResult ok));
            mret (toHuman e)
       else e ← lift (asErr dryRunResult); mret (toHuman e));
    console_log [ PStr "   ğŸ“‹ Error details:"; PStr (JSON_stringify error) ]
  else mret tt.

(** The [catch] clause of each [try] block (lines 203-205 and 234-236). *)
Definition reportException (asset : value) (label : string) (error : thrown) : M W unit :=
  symbol ← get_prop asset "symbol";
  h ← get_heap;
  message ← lift (read_message error);
  console_log [ PStr ("   âŒ " +:+ ToString h symbol +:+ " " +:+ label +:+ ": EXCEPTION -");
                PVal message ].

(** [testAssetOrdering] (lines 169-237). *)
Definition testAssetOrdering (api : Api) (asset : value)
    (testAccount amount fee : string) : M W unit :=
  symbol ← get_prop asset "symbol";
  h ← get_heap;
  console_log [ PStr ("1. Testing " +:+ ToString h symbol +:+ " with token-first ordering...") ];;
  location ← get_prop asset "location";
  tokenFirstTx ← createTransferExtrinsic api location amount fee token_first testAccount;
  try_catch (dryRunAndReport api asset testAccount tokenFirstTx "token-first")
            (reportException asset "token-first");;
  symbol ← get_prop asset "symbol";
  h ← get_heap;
  console_log [ PStr ("2. Testing " +:+ ToString h symbol +:+ " with DOT-first ordering...") ];;
  location ← get_prop asset "location";
  dotFirstTx ← createTransferExtrinsic api location amount fee dot_first testAccount;
  try_catch (dryRunAndReport api asset testAccount dotFirstTx "DOT-first")
            (reportException asset "DOT-first").

(** [process.env.POLKADOT_ASSET_HUB_WSS || "wss://..."] (line 249): the
    variable's value unless it is unset or the empty string. *)
Definition POLKADOT_ASSET_HUB_WSS (env : gmap string string) : string :=
  match env !! "POLKADOT_ASSET_HUB_WSS" with
  | Some v => if decide (v = "") then "wss://polkadot-asset-hub-rpc.polkadot.io" else v
  | None => "wss://polkadot-asset-hub-rpc.polkadot.io"
  end.

(** The [try] block of [demonstrateAssetOrderingBug] (lines 254-266). *)
Definition demonstrate_body (endpoint : string) : M W unit :=
  provider ← call (ReqWsProvider endpoint) (WsProvider_new endpoint) RepProvider;
  api ← await (ReqCreate provider) (ApiPromise_create provider) RepApi;
  let testAccount := "0x460411e07f93dc4bc2b3a6cb67dad89ca26e8a54054d13916f74c982595c2e0e" in
  let amount := "50000000000" in
  testAssetOrdering api (WUD_ASSET M0) testAccount amount "29876830";;
  testAssetOrdering api (KSM_ASSET M0) testAccount amount "18718740000";;
  await (ReqDisconnect api) (disconnect api) (λ _, RepUnit).

(** [demonstrateAssetOrderingBug] (lines 242-272). *)
Definition demonstrateAssetOrderingBug (env : gmap string string) : M W unit :=
  console_log [ PStr "ğŸ” Polkadot JS API Asset Ordering Bug Demonstration" ];;
  console_log [ PStr (String_repeat "=" 60) ];;
  console_log [ PStr "This script demonstrates that asset order matters in transferAssetsUsingTypeAndThen" ];;
  console_log [ PStr "" ];;
  let endpoint := POLKADOT_ASSET_HUB_WSS env in
  console_log [ PStr ("ğŸ“¡ Connecting to Polkadot Asset Hub: " +:+ endpoint) ];;
  try_catch (demonstrate_body endpoint)
            (λ error, message ← lift (read_message error);
                      console_error [ PStr "âŒ Error:"; PVal message ];;
                      process_exit 1).

(** The last statement of the module (lines 275-280): the demonstration runs
    when the module is the program's entry point. *)
Definition main (import_meta_url : string) (argv : list string)
    (env : gmap string string) : M W unit :=
  if decide (import_meta_url = "file://" +:+ default "undefined" (argv !! 1%nat))
  then try_catch (demonstrateAssetOrderingBug env)
                 (λ error, console_error [ PStr "âŒ Demo failed:"; PErr error ];;
                           process_exit 1)
  else mret tt.

(** Running the program: the module is loaded into an empty heap, then its
    last statement runs. *)
Definition run_program (import_meta_url : string) (argv : list string)
    (env : gmap string string) (w : W) : ran W unit :=
  main import_meta_url argv env (State H0 w).

End Script.

(** ** A scripted world, for running the model *)

Module Scripted.

(** [StringToNumber] on strings of decimal digits (the empty string is 0);
    every other string is taken for NaN. *)
Fixpoint digits (s : string) (acc : Z) : option Z :=
  match s with
  | EmptyString => Some acc
  | String c s' =>
      let n := Z.of_nat (Ascii.nat_of_ascii c) in
      if bool_decide (48 ≤ n ≤ 57) then digits s' (10 * acc + (n - 48)) else None
  end.

(** The elements of an array joined by commas, an object element giving the
    text of a plain object. *)
Definition join (vs : list value) : string :=
  String.concat ","
    (map (λ v, match v with
               | VUndefined | VNull => ""
               | VBool true => "true"
               | VBool false => "false"
               | VNum n => pretty n
               | VStr s => s
               | VRef _ => "[object Object]"
               end) vs).

(** Stand-ins for the built-ins, enough to run the script. *)
Definition builtins : JSBuiltins := {|
  StringToNumber := λ s, digits s 0;
  StringToNumber_object := eq_refl;
  Number_toString := pretty;
  Array_toString := λ _, join;
  JSON_stringify := λ j, match j with JStr s => s | _ => "{}" end;
|}.

(** The answer prepared for one call of the library: it succeeds; it fails
    with an [Error] of the given message; it fails with the given value; or,
    for a dry run, it returns the given result. *)
Inductive canned :=
| Accept
| Refuse (msg : string)
| RefuseWith (e : thrown)
| Answer (r : DryRunResult).

Definition pop {A : Type} (ok : A) (w : list canned) : (thrown + A) * list canned :=
  match w with
  | Refuse msg :: w' => (inl (Thrown (VStr msg)), w')
  | RefuseWith e :: w' => (inl e, w')
  | _ :: w' => (inr ok, w')
  | [] => (inr ok, [])
  end.

Definition all_ok : DryRunResult :=
  Ok {| executionResult := Ok {| toHuman := JNull |} |}.

Definition pop_dry (w : list canned) : (thrown + DryRunResult) * list canned :=
  match w with
  | Refuse msg :: w' => (inl (Thrown (VStr msg)), w')
  | RefuseWith e :: w' => (inl e, w')
  | Answer r :: w' => (inr r, w')
  | _ :: w' => (inr all_ok, w')
  | [] => (inr all_ok, [])
  end.

(** The world is the list of answers still to give; a call takes the first.
    Once the list is used up every call succeeds. *)
Definition remote : Remote (list canned) := {|
  WsProvider_new := λ _, pop 1%nat;
  ApiPromise_create := λ _, pop 2%nat;
  transferAssetsUsingTypeAndThen := λ _ h _, pop (length h);
  dryRunCall := λ _ _ _ _ _, pop_dry;
  disconnect := λ _, pop tt;
|}.

End Scripted.

(** * The vocabulary of the properties *)

(** ** Induction on literals *)

(** Induction on literals, with the hypothesis available for every component. *)
Section LitInd.
Variable P : lit → Prop.
Hypothesis Hval : ∀ v, P (LVal v).
Hypothesis Hobj : ∀ props, Forall (λ kt, P kt.2) props → P (LObj props).
Hypothesis Harr : ∀ elems, Forall P elems → P (LArr elems).

Fixpoint lit_components_ind (t : lit) : P t :=
  match t with
  | LVal v => Hval v
  | LObj props =>
      Hobj props
        ((fix go (ps : list (string * lit)) : Forall (λ kt, P kt.2) ps :=
            match ps with
            | [] => List.Forall_nil _
            | kt :: ps' => List.Forall_cons _ _ _ (lit_components_ind kt.2) (go ps')
            end) props)
  | LArr elems =>
      Harr elems
        ((fix go (ts : list lit) : Forall P ts :=
            match ts with
            | [] => List.Forall_nil _
            | t' :: ts' => List.Forall_cons _ _ _ (lit_components_ind t') (go ts')
            end) elems)
  end.

End LitInd.

Section Vocabulary.
Context `{JSBuiltins} {W : Type} `{Remote W}.

(** ** The parameters of the extrinsic *)

(** The objects [KSM_ASSET.location] and [WUD_ASSET.location] refer to once
    the module is loaded. *)
Definition KSM_ASSET_location : value :=
  Eval vm_compute in
    match read_prop H0 (KSM_ASSET M0) "location" with inr v => v | inl _ => VUndefined end.
Definition WUD_ASSET_location : value :=
  Eval vm_compute in
    match read_prop H0 (WUD_ASSET M0) "location" with inr v => v | inl _ => VUndefined end.

(** The two entries of the asset list. *)
Definition token_entry (tokenLocation : value) (amount : string) : lit :=
  LObj [ ("id", LVal tokenLocation); ("fun", LObj [ ("Fungible", lstr amount) ]) ].

Definition dot_entry (destFee : string) : lit :=
  LObj [ ("id", LVal (NATIVE_TOKEN_LOCATION M0)); ("fun", LObj [ ("Fungible", lstr destFee) ]) ].

Definition assets_v4 (entries : list lit) : lit := LObj [ ("v4", LArr entries) ].

(** The seven arguments of [transferAssetsUsingTypeAndThen], in order. *)
Definition transfer_params (assets : lit) (reserveType beneficiary : string) : list lit :=
  [ destination_lit; assets; lstr reserveType; feeAsset_lit; lstr "LocalReserve";
    createDummyXCM_lit beneficiary; lstr "Unlimited" ].

(** The reserve type chosen at lines 113-116, the module being loaded. *)
Definition reserveType_for (tokenLocation : value) : string :=
  if loose_eq H0 tokenLocation KSM_ASSET_location
  then "DestinationReserve" else "LocalReserve".

Definition assets_for (assetOrder : AssetOrder) (tokenLocation : value)
    (amount destFee : string) : lit :=
  match assetOrder with
  | token_first => assets_v4 [ token_entry tokenLocation amount; dot_entry destFee ]
  | dot_first => assets_v4 [ dot_entry destFee; token_entry tokenLocation amount ]
  end.

(** [args] are the parameters of a transfer of the token at [tokenLocation]
    with the given order, as they stand in heap [h]. *)
Definition built (h : heap) (tokenLocation : value) (amount destFee : string)
    (assetOrder : AssetOrder) (beneficiary : string) (args : list value) : Prop :=
  Forall2 (represents h) args
    (transfer_params (assets_for assetOrder tokenLocation amount destFee)
                     (reserveType_for tokenLocation) beneficiary).

(** ** Results and printed lines *)

(** Whether a dry-run result counts as a success: the outer result is [Ok] and
    so is its [executionResult]. *)
Definition dry_run_succeeded (r : DryRunResult) : bool :=
  match r with
  | Ok effects => match executionResult effects with Ok _ => true | Err _ => false end
  | Err _ => false
  end.

(** The error of a dry-run result: [executionResult.asErr] when the outer
    result is [Ok], the outer [asErr] otherwise. *)
Definition dry_run_error (r : DryRunResult) : option Codec :=
  match r with
  | Ok effects => match executionResult effects with Ok _ => None | Err e => Some e end
  | Err e => Some e
  end.

(** The lines the script prints. *)
Definition announce_line (n symbol label : string) : string :=
  n +:+ ". Testing " +:+ symbol +:+ " with " +:+ label +:+ " ordering...".

Definition result_line (success : bool) (symbol label : string) : string :=
  "   " +:+ (if success then "âœ…" else "âŒ") +:+ " " +:+ symbol +:+ " " +:+ label +:+ ": "
  +:+ (if success then "SUCCESS" else "FAILED").

Definition exception_line (symbol label : string) : string :=
  "   âŒ " +:+ symbol +:+ " " +:+ label +:+ ": EXCEPTION -".

(** What is printed for a dry-run result. *)
Definition report_events (symbol label : string) (r : DryRunResult) : list event :=
  EvLog [ PStr (result_line (dry_run_succeeded r) symbol label) ] ::
  match dry_run_error r with
  | Some e => [ EvLog [ PStr "   ğŸ“‹ Error details:"; PStr (JSON_stringify (toHuman e)) ] ]
  | None => []
  end.

(** ** Observations on traces *)

(** The submissions to the dry-run endpoint. *)
Definition is_dryRunCall (e : event) : bool :=
  match e with
  | EvCall (ReqDryRunCall _ _ _ _) | EvAsyncCall (ReqDryRunCall _ _ _ _) => true
  | _ => false
  end.

Definition dry_run_calls (t : list event) : nat := length (List.filter is_dryRunCall t).

(** The constructions of extrinsics and their submissions. *)
Definition is_submission_event (e : event) : bool :=
  match e with
  | EvCall (ReqTransfer _ _) | EvReturned (RepExtrinsic _)
  | EvAsyncCall (ReqDryRunCall _ _ _ _) => true
  | _ => false
  end.

Definition submission_events (t : list event) : list event :=
  List.filter is_submission_event t.

(** The calls made to the client library, in order. *)
Definition request_of (e : event) : option request :=
  match e with
  | EvCall q | EvAsyncCall q => Some q
  | _ => None
  end.

Definition requests (t : list event) : list request := omap request_of t.

Definition is_connect (q : request) : bool :=
  match q with ReqWsProvider _ => true | _ => false end.

Definition is_disconnect (q : request) : bool :=
  match q with ReqDisconnect _ => true | _ => false end.

(** How many connections a run opens ([new WsProvider]) and how many times it
    disconnects ([api.disconnect()]). *)
Definition connections_opened (t : list event) : nat :=
  length (List.filter is_connect (requests t)).

Definition disconnects (t : list event) : nat :=
  length (List.filter is_disconnect (requests t)).

(** The providers and the APIs the library has handed out. *)
Definition provider_of (e : event) : option Provider :=
  match e with EvReturned (RepProvider p) => Some p | _ => None end.

Definition api_of (e : event) : option Api :=
  match e with EvFulfilled (RepApi a) => Some a | _ => None end.

Definition providers_returned (t : list event) : list Provider := omap provider_of t.
Definition apis_created (t : list event) : list Api := omap api_of t.

(** ** Properties of traces *)

(** The four tests of the driver, in the order of the source: the number the
    announcement starts with, the symbol of the asset and the label of the
    ordering. *)
Definition driver_tests : list (string * string * string) :=
  [ ("1", "WUD", "token-first"); ("2", "WUD", "DOT-first");
    ("1", "KSM", "token-first"); ("2", "KSM", "DOT-first") ].

Definition is_log (e : event) : bool :=
  match e with EvLog _ => true | _ => false end.


(** [reports_results tests t]: in trace [t] the dry runs of the tests [tests]
    are submitted in order (the trace may stop before the last), and each
    submission is directly followed by its settlement and by what the script
    prints for it:
    - for a result that is [Ok] with an [Ok] execution result, the SUCCESS
      line;
    - for any other result, the FAILED line and then the line of the error
      details, rendered from the error of the execution result when the outer
      result is [Ok] and from the outer error when it is not;
    - for a rejection, the EXCEPTION line with the [message] of the reason;
    - for a rejection whose reason has no readable [message], nothing at all,
      then or later.
    Nothing else is printed on the standard output, apart from the
    announcement of a test whose dry run is still to come. *)
Inductive reports_results : list (string * string * string) → list event → Prop :=
| reports_nil tests : reports_results tests []
| reports_other e t tests :
    is_log e = false → is_dryRunCall e = false →
    reports_results tests t → reports_results tests (e :: t)
| reports_announcement n symbol label tests t :
    reports_results ((n, symbol, label) :: tests) t →
    reports_results ((n, symbol, label) :: tests)
      (EvLog [ PStr (announce_line n symbol label) ] :: t)
| reports_success q r n symbol label tests t :
    dry_run_succeeded r = true →
    reports_results tests t →
    reports_results ((n, symbol, label) :: tests)
      (EvAsyncCall q :: EvFulfilled (RepDryRun r) ::
       EvLog [ PStr (result_line true symbol label) ] :: t)
| reports_failed q r e n symbol label tests t :
    dry_run_succeeded r = false →
    dry_run_error r = Some e →
    reports_results tests t →
    reports_results ((n, symbol, label) :: tests)
      (EvAsyncCall q :: EvFulfilled (RepDryRun r) ::
       EvLog [ PStr (result_line false symbol label) ] ::
       EvLog [ PStr "   ğŸ“‹ Error details:"; PStr (JSON_stringify (toHuman e)) ] :: t)
| reports_exception q e message n symbol label tests t :
    read_message e = inr message →
    reports_results tests t →
    reports_results ((n, symbol, label) :: tests)
      (EvAsyncCall q :: EvRejected e ::
       EvLog [ PStr (exception_line symbol label); PVal message ] :: t)
| reports_nothing q e error test tests t :
    read_message e = inl error →
    List.filter is_log t = [] → dry_run_calls t = 0%nat →
    reports_results (test :: tests) (EvAsyncCall q :: EvRejected e :: t).

(** What the script does next after the [try] statement of a test, [tests]
    being the tests that remain: it announces the next test or, after the
    last, it disconnects. *)
Definition next_step (api : Api) (tests : list (string * string * string)) : event :=
  match tests with
  | (n, symbol, label) :: _ => EvLog [ PStr (announce_line n symbol label) ]
  | [] => EvAsyncCall (ReqDisconnect api)
  end.

(** [catches_rejections api tests t]: in trace [t] the dry runs of the tests
    [tests] are submitted in order (the trace may stop before the last), and
    every one that is rejected is caught:
    - when the [message] of the reason can be read, the rejection is directly
      followed by the line of the [catch] clause of that test, carrying that
      message, and then by the next step of the script, which is the
      announcement of the very next test or, after the last test, the call of
      [disconnect];
    - when it cannot (the reason is [undefined] or [null]), the [catch]
      clause throws: the rejection is directly followed by the line of the
      top-level [catch] clause with the message of that [TypeError] and by the
      exit with code 1, which ends the trace. *)
Inductive catches_rejections (api : Api)
    : list (string * string * string) → list event → Prop :=
| catches_nil tests : catches_rejections api tests []
| catches_other e t tests :
    is_dryRunCall e = false →
    catches_rejections api tests t → catches_rejections api tests (e :: t)
| catches_answered q r test tests t :
    catches_rejections api tests t →
    catches_rejections api (test :: tests) (EvAsyncCall q :: EvFulfilled r :: t)
| catches_caught q e message n symbol label tests t :
    read_message e = inr message →
    catches_rejections api tests (next_step api tests :: t) →
    catches_rejections api ((n, symbol, label) :: tests)
      (EvAsyncCall q :: EvRejected e ::
       EvLog [ PStr (exception_line symbol label); PVal message ] ::
       next_step api tests :: t)
| catches_thrown q e error message test tests :
    read_message e = inl error →
    read_message error = inr message →
    catches_rejections api (test :: tests)
      [ EvAsyncCall q; EvRejected e;
        EvError [ PStr "âŒ Error:"; PVal message ]; EvExit 1 ].

(** A trace in which every call is settled before anything else happens: a
    synchronous call returns or throws at once, and after an asynchronous call
    the next event is the settlement of its promise. No second call is made
    while one is pending. *)
Inductive one_at_a_time : list event → Prop :=
| one_nil : one_at_a_time []
| one_log args t : one_at_a_time t → one_at_a_time (EvLog args :: t)
| one_error args t : one_at_a_time t → one_at_a_time (EvError args :: t)
| one_exit c t : one_at_a_time t → one_at_a_time (EvExit c :: t)
| one_returned q r t : one_at_a_time t → one_at_a_time (EvCall q :: EvReturned r :: t)
| one_threw q e t : one_at_a_time t → one_at_a_time (EvCall q :: EvThrew e :: t)
| one_fulfilled q r t : one_at_a_time t → one_at_a_time (EvAsyncCall q :: EvFulfilled r :: t)
| one_rejected q e t : one_at_a_time t → one_at_a_time (EvAsyncCall q :: EvRejected e :: t).

(** The account and the amount the driver tests with (lines 257-258). *)
Definition driver_account : string :=
  "0x460411e07f93dc4bc2b3a6cb67dad89ca26e8a54054d13916f74c982595c2e0e".
Definition driver_amount : string := "50000000000".

(** The dry runs of the script, in the order of the source: for WUD and then
    for KSM, the token-first and then the DOT-first ordering; with each, the
    destination fee passed for the asset. *)
Definition plan : list (value * AssetOrder * string) :=
  [ (WUD_ASSET_location, token_first, "29876830");
    (WUD_ASSET_location, dot_first, "29876830");
    (KSM_ASSET_location, token_first, "18718740000");
    (KSM_ASSET_location, dot_first, "18718740000") ].

(** The constructions and submissions go through the plan in order: for each
    item the extrinsic is constructed from the item's parameters and, once
    constructed, it is the one submitted to the dry run. A run may stop early;
    it never skips or reorders. *)
Inductive follows_plan (h : heap) (api : Api)
    : list (value * AssetOrder * string) → list event → Prop :=
| plan_stop items : follows_plan h api items []
| plan_construction_threw location assetOrder fee items args :
    built h location driver_amount fee assetOrder driver_account args →
    follows_plan h api ((location, assetOrder, fee) :: items)
      [ EvCall (ReqTransfer api args) ]
| plan_submitted location assetOrder fee items args tx origin t :
    built h location driver_amount fee assetOrder driver_account args →
    follows_plan h api items t →
    follows_plan h api ((location, assetOrder, fee) :: items)
      (EvCall (ReqTransfer api args) :: EvReturned (RepExtrinsic tx) ::
       EvAsyncCall (ReqDryRunCall api origin tx 4) :: t).

(** A call that goes through the one provider, or the one API, of trace [t]. *)
Definition on_connection (t : list event) (q : request) : Prop :=
  match q with
  | ReqWsProvider _ => True
  | ReqCreate p => providers_returned t = [p]
  | ReqTransfer a _ | ReqDryRunCall a _ _ _ | ReqDisconnect a => apis_created t = [a]
  end.

(** The calls of [testAssetOrdering]: constructions and dry runs on [api]. *)
Definition test_request (api : Api) (q : request) : Prop :=
  match q with
  | ReqTransfer a _ | ReqDryRunCall a _ _ _ => a = api
  | _ => False
  end.

(** What a run asks of the library: it opens one connection; every other call
    goes through the provider of that connection or the API created on it; it
    disconnects at most once, as its last call; and a run that completes has
    disconnected, the fulfilment of that call being its last event. *)
Definition single_connection (t : list event) (o : outcome unit) : Prop :=
  connections_opened t = 1%nat ∧
  Forall (on_connection t) (requests t) ∧
  (disconnects t ≤ 1)%nat ∧
  (∀ a, ReqDisconnect a ∈ requests t → last (requests t) = Some (ReqDisconnect a)) ∧
  (o = Ret tt → disconnects t = 1%nat ∧ last t = Some (EvFulfilled RepUnit)).

(** ** Runs *)

(** A run of the driver: [demonstrateAssetOrderingBug] is called once, right
    after the module is loaded, in a world [w]. *)
Definition run_driver (env : gmap string string) (w : W) : ran W unit :=
  demonstrateAssetOrderingBug env (State H0 w).

(** A call of one of the two functions, with any arguments. *)
Inductive operation :=
| CallCreateTransferExtrinsic (api : Api) (tokenLocation : value) (amount destFee : string)
    (assetOrder : AssetOrder) (beneficiary : string)
| CallTestAssetOrdering (api : Api) (asset : value) (testAccount amount fee : string).

Definition run_operation (op : operation) : M W unit :=
  match op with
  | CallCreateTransferExtrinsic api tokenLocation amount destFee assetOrder beneficiary =>
      createTransferExtrinsic api tokenLocation amount destFee assetOrder beneficiary;;
      mret tt
  | CallTestAssetOrdering api asset testAccount amount fee =>
      testAssetOrdering api asset testAccount amount fee
  end.

(** The state after a sequence of calls, each starting where the previous one
    ended, however it ended. *)
Fixpoint run_operations (ops : list operation) (s : state W) : state W :=
  match ops with
  | [] => s
  | op :: ops' => run_operations ops' (final (run_operation op s))
  end.

(** ** The traces of the script, statement by statement *)

(** The events of one [try] statement of [testAssetOrdering] that completes:
    the dry run of [tx] is submitted; either it is rejected and the [catch]
    clause prints the message of the reason, or its result is printed. *)
Inductive attempt (api : Api) (symbol label : string) (tx : Extrinsic) : list event → Prop :=
| attempt_rejected origin e message :
    read_message e = inr message →
    attempt api symbol label tx
      [ EvAsyncCall (ReqDryRunCall api origin tx 4); EvRejected e;
        EvLog [ PStr (exception_line symbol label); PVal message ] ]
| attempt_answered origin r :
    attempt api symbol label tx
      (EvAsyncCall (ReqDryRunCall api origin tx 4) :: EvFulfilled (RepDryRun r) ::
       report_events symbol label r).

(** The asset as the script reads it, now and in every later heap. *)
Definition asset_reads (h : heap) (asset : value) (symbol : string) (location : value) : Prop :=
  ∀ h', h `prefix_of` h' →
    read_prop h' asset "location" = inr location ∧
    ∃ v, read_prop h' asset "symbol" = inr v ∧ ToString h' v = symbol.

(** The events of a [try] statement whose [catch] clause throws: the dry run
    is rejected with a reason of which [message] cannot be read. *)
Definition uncaught (api : Api) (tx : Extrinsic) (origin : value) (e : thrown) : list event :=
  [ EvAsyncCall (ReqDryRunCall api origin tx 4); EvRejected e ].

(** The events of one call of [testAssetOrdering], and how it ends: it throws
    when the construction of an extrinsic does or when a [catch] clause does,
    and nothing else stops it. *)
Inductive asset_test (api : Api) (h : heap) (symbol : string) (location : value)
    (testAccount amount fee : string) : list event → outcome unit → Prop :=
| asset_test_first_threw args e :
    built h location amount fee token_first testAccount args →
    asset_test api h symbol location testAccount amount fee
      [ EvLog [ PStr (announce_line "1" symbol "token-first") ];
        EvCall (ReqTransfer api args); EvThrew e ]
      (Throw e)
| asset_test_first_uncaught args tx origin e error :
    built h location amount fee token_first testAccount args →
    read_message e = inl error →
    asset_test api h symbol location testAccount amount fee
      ([ EvLog [ PStr (announce_line "1" symbol "token-first") ];
         EvCall (ReqTransfer api args); EvReturned (RepExtrinsic tx) ] ++
       uncaught api tx origin e)
      (Throw error)
| asset_test_second_threw args1 tx1 t1 args2 e :
    built h location amount fee token_first testAccount args1 →
    attempt api symbol "token-first" tx1 t1 →
    built h location amount fee dot_first testAccount args2 →
    asset_test api h symbol location testAccount amount fee
      ([ EvLog [ PStr (announce_line "1" symbol "token-first") ];
         EvCall (ReqTransfer api args1); EvReturned (RepExtrinsic tx1) ] ++ t1 ++
       [ EvLog [ PStr (announce_line "2" symbol "DOT-first") ];
         EvCall (ReqTransfer api args2); EvThrew e ])
      (Throw e)
| asset_test_second_uncaught args1 tx1 t1 args2 tx2 origin e error :
    built h location amount fee token_first testAccount args1 →
    attempt api symbol "token-first" tx1 t1 →
    built h location amount fee dot_first testAccount args2 →
    read_message e = inl error →
    asset_test api h symbol location testAccount amount fee
      ([ EvLog [ PStr (announce_line "1" symbol "token-first") ];
         EvCall (ReqTransfer api args1); EvReturned (RepExtrinsic tx1) ] ++ t1 ++
       [ EvLog [ PStr (announce_line "2" symbol "DOT-first") ];
         EvCall (ReqTransfer api args2); EvReturned (RepExtrinsic tx2) ] ++
       uncaught api tx2 origin e)
      (Throw error)
| asset_test_done args1 tx1 t1 args2 tx2 t2 :
    built h location amount fee token_first testAccount args1 →
    attempt api symbol "token-first" tx1 t1 →
    built h location amount fee dot_first testAccount args2 →
    attempt api symbol "DOT-first" tx2 t2 →
    asset_test api h symbol location testAccount amount fee
      ([ EvLog [ PStr (announce_line "1" symbol "token-first") ];
         EvCall (ReqTransfer api args1); EvReturned (RepExtrinsic tx1) ] ++ t1 ++
       [ EvLog [ PStr (announce_line "2" symbol "DOT-first") ];
         EvCall (ReqTransfer api args2); EvReturned (RepExtrinsic tx2) ] ++ t2)
      (Ret tt).

(** The lines printed before the connection is attempted (lines 243-251). *)
Definition banner (endpoint : string) : list event :=
  [ EvLog [ PStr "ğŸ” Polkadot JS API Asset Ordering Bug Demonstration" ];
    EvLog [ PStr (String_repeat "=" 60) ];
    EvLog [ PStr "This script demonstrates that asset order matters in transferAssetsUsingTypeAndThen" ];
    EvLog [ PStr "" ];
    EvLog [ PStr ("ğŸ“¡ Connecting to Polkadot Asset Hub: " +:+ endpoint) ] ].

(** The events of a successful connection. *)
Definition connected (endpoint : string) (p : Provider) (api : Api) : list event :=
  [ EvCall (ReqWsProvider endpoint); EvReturned (RepProvider p);
    EvAsyncCall (ReqCreate p); EvFulfilled (RepApi api) ].

(** The events of the top-level [catch] clause (lines 268-271), and how it
    ends: it prints the message of what it caught and ends the process, or it
    throws because that message cannot be read. *)
Definition fatal (e : thrown) : list event :=
  match read_message e with
  | inr message => [ EvError [ PStr "âŒ Error:"; PVal message ]; EvExit 1 ]
  | inl _ => []
  end.

Definition fatal_outcome (e : thrown) : outcome unit :=
  match read_message e with
  | inr _ => Exit 1
  | inl error => Throw error
  end.

Definition WUD_test (api : Api) (h : heap) : list event → outcome unit → Prop :=
  asset_test api h "WUD" WUD_ASSET_location driver_account driver_amount "29876830".
Definition KSM_test (api : Api) (h : heap) : list event → outcome unit → Prop :=
  asset_test api h "KSM" KSM_ASSET_location driver_account driver_amount "18718740000".

(** Every way a run of [demonstrateAssetOrderingBug] can go. *)
Inductive driver_run (h : heap) (endpoint : string) : list event → outcome unit → Prop :=
| run_no_provider e :
    driver_run h endpoint
      (banner endpoint ++ [ EvCall (ReqWsProvider endpoint); EvThrew e ] ++ fatal e) (fatal_outcome e)
| run_no_api p e :
    driver_run h endpoint
      (banner endpoint ++
       [ EvCall (ReqWsProvider endpoint); EvReturned (RepProvider p);
         EvAsyncCall (ReqCreate p); EvRejected e ] ++ fatal e) (fatal_outcome e)
| run_WUD_threw p api t1 e :
    WUD_test api h t1 (Throw e) →
    driver_run h endpoint (banner endpoint ++ connected endpoint p api ++ t1 ++ fatal e) (fatal_outcome e)
| run_KSM_threw p api t1 t2 e :
    WUD_test api h t1 (Ret tt) →
    KSM_test api h t2 (Throw e) →
    driver_run h endpoint
      (banner endpoint ++ connected endpoint p api ++ t1 ++ t2 ++ fatal e) (fatal_outcome e)
| run_disconnect_rejected p api t1 t2 e :
    WUD_test api h t1 (Ret tt) →
    KSM_test api h t2 (Ret tt) →
    driver_run h endpoint
      (banner endpoint ++ connected endpoint p api ++ t1 ++ t2 ++
       [ EvAsyncCall (ReqDisconnect api); EvRejected e ] ++ fatal e) (fatal_outcome e)
| run_complete p api t1 t2 :
    WUD_test api h t1 (Ret tt) →
    KSM_test api h t2 (Ret tt) →
    driver_run h endpoint
      (banner endpoint ++ connected endpoint p api ++ t1 ++ t2 ++
       [ EvAsyncCall (ReqDisconnect api); EvFulfilled RepUnit ]) (Ret tt).

(** ** Pre- and postconditions *)

(** [wp m Q s]: running [m] from [s] ends in an outcome, a state and a trace
    that satisfy [Q]. Computations are total, so this is the strongest as well
    as the weakest reading. *)
Definition wp {A} (m : M W A) (Q : outcome A → state W → list event → Prop)
    (s : state W) : Prop :=
  Q (out (m s)) (final (m s)) (trace (m s)).

(** What [createTransferExtrinsic] does: it allocates the parameters, leaving
    the heap it was given in place, and calls the extrinsic constructor once,
    with values that represent the expected literals; it returns the
    constructor's result or throws its error. *)
Definition transfer_post (api : Api) (tokenLocation : value) (amount destFee : string)
    (assetOrder : AssetOrder) (beneficiary : string) (s : state W)
    (o : outcome Extrinsic) (s' : state W) (t : list event) : Prop :=
  ∃ args reserveType,
    st_heap s `prefix_of` st_heap s' ∧
    (H0 `prefix_of` st_heap s → reserveType = reserveType_for tokenLocation) ∧
    Forall2 (represents (st_heap s')) args
      (transfer_params (assets_for assetOrder tokenLocation amount destFee)
                       reserveType beneficiary) ∧
    match transferAssetsUsingTypeAndThen api (st_heap s') args (st_world s) with
    | (inr tx, w') =>
        o = Ret tx ∧ st_world s' = w' ∧
        t = [EvCall (ReqTransfer api args); EvReturned (RepExtrinsic tx)]
    | (inl e, w') =>
        o = Throw e ∧ st_world s' = w' ∧
        t = [EvCall (ReqTransfer api args); EvThrew e]
    end.

(** A computation that only adds objects to the heap. *)
Definition grows {A} (m : M W A) : Prop :=
  ∀ s, st_heap s `prefix_of` st_heap (final (m s)).

(** ** Further observations *)

(** A reference to an object that heap [h] does not hold: one allocated
    later. *)
Definition allocated_after (h : heap) (v : value) : bool :=
  match v with
  | VRef l => bool_decide (length h ≤ l)%nat
  | _ => false
  end.

(** The literal of [KSM_ASSET.location] (lines 44-55), as a caller may write
    it again. *)
Definition KSM_location_lit : lit :=
  LObj [ ("parents", lnum 2);
         ("interior",
           LObj [ ("x1", LArr [ LObj [("globalConsensus",
                                        LObj [("kusama", LVal VNull)])] ]) ]) ].

(** The third argument of a call of the extrinsic constructor, [undefined]
    when fewer are passed. *)
Definition reserve_type_of (q : request) : option value :=
  match q with
  | ReqTransfer _ args => Some (default VUndefined (args !! 2%nat))
  | _ => None
  end.

(** The reserve types passed to the extrinsic constructor, in order. *)
Definition reserve_types (t : list event) : list value := omap reserve_type_of (requests t).

(** A request that, if it is a dry run, is made for the origin
    [{system: {signed: testAccount}}] and the result version 4. *)
Definition signed_dry_run (h : heap) (testAccount : string) (q : request) : Prop :=
  match q with
  | ReqDryRunCall _ origin _ version =>
      represents h origin (origin_lit testAccount) ∧ version = 4
  | _ => True
  end.

(** A computation all of whose dry runs are made for [testAccount] and the
    result version 4, the origins being read in the heap it leaves. *)
Definition signs {A} (testAccount : string) (m : M W A) : Prop :=
  ∀ s, wp m (λ _ s' t, st_heap s `prefix_of` st_heap s' ∧
                       Forall (signed_dry_run (st_heap s') testAccount) (requests t)) s.

(** What is written to the error stream, the end of the process, and the
    error a call failed with. *)
Definition is_stderr (e : event) : bool :=
  match e with EvError _ => true | _ => false end.

Definition is_exit (e : event) : bool :=
  match e with EvExit _ => true | _ => false end.

Definition failure_of (e : event) : option thrown :=
  match e with
  | EvThrew x | EvRejected x => Some x
  | _ => None
  end.

(** What a run prints on the standard output: the arguments of each
    [console.log], in order. *)
Definition printed_of (e : event) : option (list printed) :=
  match e with EvLog args => Some args | _ => None end.

Definition stdout (t : list event) : list (list printed) := omap printed_of t.

(** What is printed for one dry run: the SUCCESS line; or the FAILED line and
    the line of the error details; or the EXCEPTION line with a message. *)
Inductive verdict (symbol label : string) : list (list printed) → Prop :=
| verdict_success :
    verdict symbol label [ [ PStr (result_line true symbol label) ] ]
| verdict_failed details :
    verdict symbol label
      [ [ PStr (result_line false symbol label) ];
        [ PStr "   ğŸ“‹ Error details:"; PStr details ] ]
| verdict_exception message :
    verdict symbol label [ [ PStr (exception_line symbol label); PVal message ] ].

(** [caught_after t e]: after the events [t], the value a [catch] clause of
    the driver receives is [e]. The trace ends with a call that failed: [e] is
    what a synchronous call threw, or the reason an awaited call other than a
    dry run was rejected with; or, a dry run being rejected with a reason of
    which [message] cannot be read, [e] is the [TypeError] that the [catch]
    clause of that dry run threw. *)
Inductive caught_after : list event → thrown → Prop :=
| caught_thrown t q e :
    caught_after (t ++ [ EvCall q; EvThrew e ]) e
| caught_rejected t q e :
    is_dryRunCall (EvAsyncCall q) = false →
    caught_after (t ++ [ EvAsyncCall q; EvRejected e ]) e
| caught_from_catch_clause t q e error :
    is_dryRunCall (EvAsyncCall q) = true →
    read_message e = inl error →
    caught_after (t ++ [ EvAsyncCall q; EvRejected e ]) error.

(** Whether some call of the trace failed with [undefined] or [null]. *)
Definition is_nullish_failure (e : event) : bool :=
  match failure_of e with
  | Some ThrownUndefined | Some ThrownNull => true
  | _ => false
  end.

Definition fails_with_nullish (t : list event) : bool := existsb is_nullish_failure t.

(** The constructions of extrinsics in a trace. *)
Definition is_construction (e : event) : bool :=
  match e with EvCall (ReqTransfer _ _) => true | _ => false end.

Definition constructions (t : list event) : nat := length (List.filter is_construction t).

End Vocabulary.

(** * Properties *)

(** ** Literals and the heap *)

(** A heap that only grew still represents what it represented. *)
Lemma represents_mono h h' v t :
  h `prefix_of` h' → represents h v t → represents h' v t.
Proof.
  intros Hpre. revert v. induction t as [v0|props IH|elems IH] using lit_components_ind;
    intros v Hrep; inversion Hrep; subst.
  - constructor.
  - econstructor; [by eapply prefix_lookup_Some|].
    clear Hrep H1. revert kvs H3. induction IH as [|kt props Hkt _ IHprops]; intros kvs Hall;
      inversion Hall; subst; constructor; [|by auto].
    destruct_and!; split; auto.
  - econstructor; [by eapply prefix_lookup_Some|].
    clear Hrep H1. revert vs H3. induction IH as [|t elems Ht _ IHelems]; intros vs Hall;
      inversion Hall; subst; constructor; auto.
Qed.

(** Evaluating a sequence of components extends the heap and yields values
    that represent the components, provided each component does. *)
Lemma alloc_seq_spec {A B} (f : A → heap → B * heap) (R : heap → B → A → Prop) xs :
  (∀ h h' y x, h `prefix_of` h' → R h y x → R h' y x) →
  Forall (λ x, ∀ h, ∃ k, (f x h).2 = h ++ k ∧ R (h ++ k) (f x h).1 x) xs →
  ∀ h, ∃ k, (alloc_seq f xs h).2 = h ++ k ∧ Forall2 (R (h ++ k)) (alloc_seq f xs h).1 xs.
Proof.
  intros Hmono Hall. induction Hall as [|x xs Hx _ IH]; intros h; simpl.
  - exists []. rewrite app_nil_r. by split.
  - destruct (Hx h) as (k1 & Hk1 & HR1). destruct (f x h) as [y h1]. simpl in *. subst h1.
    destruct (IH (h ++ k1)) as (k2 & Hk2 & HR2).
    destruct (alloc_seq f xs (h ++ k1)) as [ys h2]. simpl in *. subst h2.
    exists (k1 ++ k2). rewrite app_assoc. split; [done|]. constructor; [|done].
    eapply Hmono; [|exact HR1]. by apply prefix_app_r.
Qed.

(** Evaluating a literal only appends to the heap, and the value it yields
    represents the literal in the new heap. *)
Lemma alloc_lit_spec t h :
  ∃ k, (alloc_lit t h).2 = h ++ k ∧ represents (h ++ k) (alloc_lit t h).1 t.
Proof.
  revert h. induction t as [v|props IH|elems IH] using lit_components_ind; intros h; simpl.
  - exists []. rewrite app_nil_r. split; [done|constructor].
  - destruct (alloc_seq_spec
                (λ kt h, let '(v, h1) := alloc_lit kt.2 h in ((kt.1, v), h1))
                (λ h kv kt, kv.1 = kt.1 ∧ represents h kv.2 kt.2) props) with (h := h)
      as (k & Hk & Hrep).
    + intros h1 h2 kv kt Hpre [? ?]. split; [done|by eapply represents_mono].
    + eapply Forall_impl; [exact IH|]. intros kt Hkt h1. simpl in Hkt.
      destruct (Hkt h1) as (k1 & Hk1 & Hr1). exists k1.
      destruct (alloc_lit kt.2 h1) as [v1 h1']. simpl in *. by subst.
    + destruct (alloc_seq _ props h) as [kvs h']. simpl in *. subst h'.
      exists (k ++ [Obj kvs]). rewrite app_assoc. split; [done|].
      econstructor.
      * rewrite lookup_app_r by lia. by rewrite Nat.sub_diag.
      * eapply Forall2_impl; [exact Hrep|]. intros kv kt [? ?]. split; [done|].
        eapply represents_mono; [|done]. by apply prefix_app_r.
  - destruct (alloc_seq_spec alloc_lit represents elems) with (h := h) as (k & Hk & Hrep).
    + intros ?????. by eapply represents_mono.
    + exact IH.
    + destruct (alloc_seq alloc_lit elems h) as [vs h']. simpl in *. subst h'.
      exists (k ++ [Arr vs]). rewrite app_assoc. split; [done|].
      econstructor.
      * rewrite lookup_app_r by lia. by rewrite Nat.sub_diag.
      * eapply Forall2_impl; [exact Hrep|]. intros v t Hr.
        eapply represents_mono; [|done]. by apply prefix_app_r.
Qed.

Lemma alloc_lit_prefix t h v h' : alloc_lit t h = (v, h') → h `prefix_of` h'.
Proof.
  intros E. destruct (alloc_lit_spec t h) as (k & Hk & _). rewrite E in Hk. simpl in Hk.
  subst. by apply prefix_app_r.
Qed.

Lemma alloc_lit_represents t h v h' : alloc_lit t h = (v, h') → represents h' v t.
Proof.
  intros E. destruct (alloc_lit_spec t h) as (k & Hk & Hr). rewrite E in Hk, Hr. simpl in *.
  by subst.
Qed.

(** ** The trace properties tell traces apart *)

Section Discriminate.
Context `{JSBuiltins}.

(** The printed text is that of the source file: the bytes of the marks of
    lines 195, 201, 243 and 251. *)
Example printed_marks_bytes :
  let bytes s := map (λ c, Z.of_nat (Ascii.nat_of_ascii c)) (String.list_ascii_of_string s) in
  bytes "âœ…" = [ 195; 162; 197; 147; 226; 128; 166 ] ∧
  bytes "âŒ" = [ 195; 162; 197; 146 ] ∧
  bytes "ğŸ“‹" = [ 196; 159; 197; 184; 226; 128; 156; 226; 128; 185 ] ∧
  bytes "ğŸ”" = [ 196; 159; 197; 184; 226; 128; 157 ] ∧
  bytes "ğŸ“¡" = [ 196; 159; 197; 184; 226; 128; 156; 194; 161 ].
Proof. by vm_compute. Qed.

(** A failed result printed as a success is not a report of the result. *)
Example failure_reported_as_success :
  ¬ reports_results driver_tests
      [ EvAsyncCall (ReqDryRunCall 0%nat VNull 0%nat 4);
        EvFulfilled (RepDryRun (Err {| toHuman := JNull |}));
        EvLog [ PStr (result_line true "WUD" "token-first") ] ].
Proof.
  intros Hr. inversion Hr as [|? ? ? ? Hcall| | | | |]; subst; discriminate.
Qed.

(** Nor is a result that is not printed at all. *)
Example result_not_reported :
  ¬ reports_results driver_tests
      [ EvAsyncCall (ReqDryRunCall 0%nat VNull 0%nat 4);
        EvFulfilled (RepDryRun (Ok {| executionResult := Ok {| toHuman := JNull |} |}));
        EvLog [ PStr (announce_line "2" "WUD" "DOT-first") ] ].
Proof.
  intros Hr. inversion Hr as [|? ? ? ? Hcall| | | | |]; subst; discriminate.
Qed.

(** A SUCCESS line that follows no result is not a report either. *)
Example success_without_result :
  ¬ reports_results driver_tests [ EvLog [ PStr (result_line true "WUD" "token-first") ] ].
Proof.
  intros Hr. inversion Hr as [|? ? ? Hlog| | | | |]; subst; discriminate.
Qed.

(** A rejected dry run after which nothing is printed for it, while the
    message of the reason can be read, is not reported. *)
Example rejection_not_reported :
  ¬ reports_results driver_tests
      [ EvAsyncCall (ReqDryRunCall 0%nat VNull 0%nat 4); EvRejected (TypeError "boom");
        EvLog [ PStr (announce_line "2" "WUD" "DOT-first") ] ].
Proof.
  intros Hr. inversion Hr as [|? ? ? ? Hcall| | | | |? ? ? ? ? ? Hread]; subst; discriminate.
Qed.

(** A rejected dry run after which the process exits is not a caught one. *)
Example rejection_ends_the_run api :
  ¬ catches_rejections api driver_tests
      [ EvAsyncCall (ReqDryRunCall api VNull 0%nat 4); EvRejected (TypeError "boom");
        EvLog [ PStr (exception_line "WUD" "token-first"); PVal (VStr "boom") ];
        EvError [ PStr "âŒ Error:"; PVal (VStr "boom") ]; EvExit 1 ].
Proof.
  intros Hr. inversion Hr as [|? ? ? Hcall| | |]; subst; discriminate.
Qed.

(** Nor is one after which the remaining tests are dropped: the next step
    after the first test is the second test, not the call of [disconnect]. *)
Example tests_dropped_after_rejection api :
  ¬ catches_rejections api driver_tests
      [ EvAsyncCall (ReqDryRunCall api VNull 0%nat 4); EvRejected (TypeError "boom");
        EvLog [ PStr (exception_line "WUD" "token-first"); PVal (VStr "boom") ];
        EvAsyncCall (ReqDisconnect api); EvFulfilled RepUnit ].
Proof.
  intros Hr. inversion Hr as [|? ? ? Hcall| | |]; subst; discriminate.
Qed.

(** Two calls started before the first is settled are not one at a time. *)
Example two_calls_in_flight :
  ¬ one_at_a_time
      [ EvAsyncCall (ReqDryRunCall 0%nat VNull 0%nat 4);
        EvAsyncCall (ReqDryRunCall 0%nat VNull 1%nat 4);
        EvFulfilled RepUnit; EvFulfilled RepUnit ].
Proof. intros Hr. inversion Hr. Qed.

(** A dry run of something that was not just constructed is off the plan. *)
Example submission_without_construction api h origin tx :
  ¬ follows_plan h api plan [ EvAsyncCall (ReqDryRunCall api origin tx 4) ].
Proof. intros Hr. inversion Hr. Qed.

End Discriminate.

(** ** Reasoning about computations *)

Section Rules.
Context `{JSBuiltins} {W : Type} `{Remote W}.

Lemma wp_conseq {A} (m : M W A) (Q Q' : outcome A → state W → list event → Prop) s :
  wp m Q s → (∀ o s' t, Q o s' t → Q' o s' t) → wp m Q' s.
Proof. unfold wp. auto. Qed.

Lemma wp_ret {A} (a : A) Q (s : state W) : Q (Ret a) s [] → wp (mret a) Q s.
Proof. done. Qed.

Lemma wp_bind {A B} (m : M W A) (k : A → M W B) Q (s : state W) :
  wp m (λ o s1 t1,
          match o with
          | Ret a => wp (k a) (λ o' s2 t2, Q o' s2 (t1 ++ t2)) s1
          | Throw e => Q (Throw e) s1 t1
          | Exit c => Q (Exit c) s1 t1
          end) s →
  wp (m ≫= k) Q s.
Proof.
  unfold wp, mbind, M_bind, bind. destruct (m s) as [[a|e|c] s1 t1]; simpl; [|done..].
  by destruct (k a s1).
Qed.

Lemma wp_try_catch {A} (m : M W A) (handler : thrown → M W A) Q (s : state W) :
  wp m (λ o s1 t1,
          match o with
          | Throw e => wp (handler e) (λ o' s2 t2, Q o' s2 (t1 ++ t2)) s1
          | _ => Q o s1 t1
          end) s →
  wp (try_catch m handler) Q s.
Proof.
  unfold wp, try_catch. destruct (m s) as [[a|e|c] s1 t1]; simpl; [done| |done].
  by destruct (handler e s1).
Qed.

Lemma wp_lift {A} (r : thrown + A) Q (s : state W) :
  match r with inl e => Q (Throw e) s [] | inr a => Q (Ret a) s [] end →
  wp (lift r) Q s.
Proof. by destruct r. Qed.

Lemma wp_emit e Q (s : state W) : Q (Ret tt) s [e] → wp (emit e) Q s.
Proof. done. Qed.

Lemma wp_console_log args Q (s : state W) : Q (Ret tt) s [EvLog args] → wp (console_log args) Q s.
Proof. done. Qed.

Lemma wp_console_error args Q (s : state W) : Q (Ret tt) s [EvError args] → wp (console_error args) Q s.
Proof. done. Qed.

Lemma wp_process_exit {A} c (Q : outcome A → _) (s : state W) :
  Q (Exit c) s [EvExit c] → wp (process_exit c) Q s.
Proof. done. Qed.

Lemma wp_get_heap Q (s : state W) : Q (Ret (st_heap s)) s [] → wp get_heap Q s.
Proof. done. Qed.

Lemma wp_new t Q (s : state W) :
  (∀ v h', alloc_lit t (st_heap s) = (v, h') →
           st_heap s `prefix_of` h' → represents h' v t →
           Q (Ret v) (State h' (st_world s)) []) →
  wp (new t) Q s.
Proof.
  intros HQ. unfold wp, new. destruct (alloc_lit t (st_heap s)) as [v h'] eqn:E. simpl.
  apply HQ; [done|by eapply alloc_lit_prefix|by eapply alloc_lit_represents].
Qed.

Lemma wp_get_prop v k Q (s : state W) :
  match read_prop (st_heap s) v k with
  | inl e => Q (Throw e) s []
  | inr x => Q (Ret x) s []
  end →
  wp (get_prop v k) Q s.
Proof. unfold wp, get_prop. by destruct (read_prop _ _ _). Qed.

Lemma wp_call {A} q (f : W → (thrown + A) * W) rep Q (s : state W) :
  (∀ a w', f (st_world s) = (inr a, w') →
           Q (Ret a) (State (st_heap s) w') [EvCall q; EvReturned (rep a)]) →
  (∀ e w', f (st_world s) = (inl e, w') →
           Q (Throw e) (State (st_heap s) w') [EvCall q; EvThrew e]) →
  wp (call q f rep) Q s.
Proof.
  intros Hok Herr. unfold wp, call. destruct (f (st_world s)) as [[e|a] w'] eqn:E; simpl; auto.
Qed.

Lemma wp_await {A} q (f : W → (thrown + A) * W) rep Q (s : state W) :
  (∀ a w', f (st_world s) = (inr a, w') →
           Q (Ret a) (State (st_heap s) w') [EvAsyncCall q; EvFulfilled (rep a)]) →
  (∀ e w', f (st_world s) = (inl e, w') →
           Q (Throw e) (State (st_heap s) w') [EvAsyncCall q; EvRejected e]) →
  wp (await q f rep) Q s.
Proof.
  intros Hok Herr. unfold wp, await. destruct (f (st_world s)) as [[e|a] w'] eqn:E; simpl; auto.
Qed.

End Rules.

(** One step of symbolic execution. *)
Ltac wp_step :=
  lazymatch goal with
  | |- wp (mbind _ _) _ _ => apply wp_bind
  | |- wp (_ ≫= _) _ _ => apply wp_bind
  | |- wp (try_catch _ _) _ _ => apply wp_try_catch
  | |- wp (mret _) _ _ => apply wp_ret
  | |- wp (lift _) _ _ => apply wp_lift
  | |- wp (console_log _) _ _ => apply wp_console_log
  | |- wp (console_error _) _ _ => apply wp_console_error
  | |- wp (process_exit _) _ _ => apply wp_process_exit
  | |- wp get_heap _ _ => apply wp_get_heap
  | |- wp (new _) _ _ => apply wp_new; intros ?v ?h ?Halloc ?Hpre ?Hrep
  | |- wp (get_prop _ _) _ _ => apply wp_get_prop
  end; cbn beta iota.

(** ** The parameters of the extrinsic *)

Section Transfer.
Context `{JSBuiltins} {W : Type} `{Remote W}.

Lemma H0_lookup h (l : nat) o : H0 `prefix_of` h → H0 !! l = Some o → h !! l = Some o.
Proof. intros Hpre Hl. by eapply prefix_lookup_Some. Qed.

Lemma read_KSM_location h :
  H0 `prefix_of` h → read_prop h (KSM_ASSET M0) "location" = inr KSM_ASSET_location.
Proof.
  intros Hpre. simpl. by rewrite (H0_lookup h 11 _ Hpre eq_refl).
Qed.

(** Comparing with [KSM_ASSET.location] gives the same answer in every heap
    that extends the module's. *)
Lemma loose_eq_KSM_location h v :
  H0 `prefix_of` h → loose_eq h v KSM_ASSET_location = loose_eq H0 v KSM_ASSET_location.
Proof.
  intros Hpre. unfold loose_eq, KSM_ASSET_location.
  destruct v as [| |[]| | |]; simpl; try done;
    by rewrite (H0_lookup h 10 _ Hpre eq_refl).
Qed.

Lemma createTransferExtrinsic_spec api tokenLocation amount destFee assetOrder beneficiary s :
  wp (createTransferExtrinsic api tokenLocation amount destFee assetOrder beneficiary)
     (transfer_post api tokenLocation amount destFee assetOrder beneficiary s) s.
Proof.
  unfold createTransferExtrinsic, createDummyXCM.
  wp_step. apply wp_new; intros destination h1 _ Hpre1 Hdest.
  do 2 wp_step. cbn [st_heap st_world].
  destruct (read_prop h1 (KSM_ASSET M0) "location") as [e|ksm] eqn:Eksm.
  { simpl in Eksm. by destruct (h1 !! 11%nat) as [[]|]. }
  do 3 wp_step. cbn [st_heap st_world].
  set (reserveType := if loose_eq h1 tokenLocation ksm
                      then "DestinationReserve" else "LocalReserve").
  assert (∀ Q : outcome value → state W → list event → Prop,
    (∀ assets h2, h1 `prefix_of` h2 →
       represents h2 assets (assets_for assetOrder tokenLocation amount destFee) →
       Q (Ret assets) (State h2 (st_world s)) []) →
    wp (if decide (assetOrder = token_first)
        then new (LObj [ ("v4", LArr [
               LObj [ ("id", LVal tokenLocation); ("fun", LObj [ ("Fungible", lstr amount) ]) ];
               LObj [ ("id", LVal (NATIVE_TOKEN_LOCATION M0));
                      ("fun", LObj [ ("Fungible", lstr destFee) ]) ] ]) ])
        else new (LObj [ ("v4", LArr [
               LObj [ ("id", LVal (NATIVE_TOKEN_LOCATION M0));
                      ("fun", LObj [ ("Fungible", lstr destFee) ]) ];
               LObj [ ("id", LVal tokenLocation);
                      ("fun", LObj [ ("Fungible", lstr amount) ]) ] ]) ]))
       Q (State h1 (st_world s))) as Hassets.
  { intros Q HQ. destruct assetOrder; case_decide; try done; wp_step; by apply HQ. }
  apply Hassets. clear Hassets. intros assets h2 Hpre2 Hassets.
  wp_step. apply wp_new; intros feeAsset h3 _ Hpre3 Hfee. cbn [st_heap st_world] in *.
  wp_step. apply wp_new; intros customXcm h4 _ Hpre4 Hxcm. cbn [st_heap st_world] in *.
  do 2 wp_step. cbn [st_heap st_world].
  assert (st_heap s `prefix_of` h4) as Hgrow
    by (by repeat (etrans; [eassumption|])).
  assert (H0 `prefix_of` st_heap s → reserveType = reserveType_for tokenLocation) as Hrt.
  { intros HH0. unfold reserveType, reserveType_for.
    assert (H0 `prefix_of` h1) as Hh by (by etrans).
    rewrite read_KSM_location in Eksm by done. injection Eksm as <-.
    by rewrite loose_eq_KSM_location. }
  assert (Forall2 (represents h4)
            [destination; assets; VStr reserveType; feeAsset; VStr "LocalReserve";
             customXcm; VStr "Unlimited"]
            (transfer_params (assets_for assetOrder tokenLocation amount destFee)
                             reserveType beneficiary)) as Hargs.
  { repeat first [ apply Forall2_nil_2 | apply Forall2_cons_2 ]; try constructor.
    - eapply represents_mono; [|exact Hdest]. by repeat (etrans; [eassumption|]).
    - eapply represents_mono; [|exact Hassets]. by etrans.
    - eapply represents_mono; [exact Hpre4|exact Hfee].
    - exact Hxcm. }
  apply wp_call; intros r w' Ecall; rewrite !app_nil_l; cbn [st_heap st_world] in *;
    eexists _, reserveType; cbn [st_heap st_world]; rewrite Ecall; by split_and!.
Qed.

(** The comparison of line 114 holds for the location object itself and for
    one primitive: the string an object converts to. *)
Lemma loose_eq_KSM_location_cases v :
  loose_eq H0 v KSM_ASSET_location =
    bool_decide (v = KSM_ASSET_location ∨ v = VStr "[object Object]").
Proof.
  unfold loose_eq, KSM_ASSET_location.
  destruct v as [| |[]|n|str|l]; simpl; rewrite ?StringToNumber_object; try done.
  - apply bool_decide_ext. split; [intros ->; by right|intros [|]; congruence].
  - apply bool_decide_ext. split; [intros ->; by left|intros [|]; congruence].
Qed.

Lemma reserveType_for_cases v :
  reserveType_for v =
    if bool_decide (v = KSM_ASSET_location ∨ v = VStr "[object Object]")
    then "DestinationReserve" else "LocalReserve".
Proof. unfold reserveType_for. by rewrite loose_eq_KSM_location_cases. Qed.

Lemma represents_native h :
  H0 `prefix_of` h → represents h (NATIVE_TOKEN_LOCATION M0) NATIVE_TOKEN_LOCATION_lit.
Proof.
  intros Hpre. eapply represents_mono; [exact Hpre|].
  econstructor; [reflexivity|]. repeat constructor.
Qed.

(** The arguments of the one call [createTransferExtrinsic] makes. *)
Lemma createTransferExtrinsic_call api tokenLocation amount destFee assetOrder beneficiary s :
  let r := createTransferExtrinsic api tokenLocation amount destFee assetOrder beneficiary s in
  ∃ args reserveType,
    head (trace r) = Some (EvCall (ReqTransfer api args)) ∧
    st_heap s `prefix_of` st_heap (final r) ∧
    (H0 `prefix_of` st_heap s → reserveType = reserveType_for tokenLocation) ∧
    Forall2 (represents (st_heap (final r))) args
      (transfer_params (assets_for assetOrder tokenLocation amount destFee)
                       reserveType beneficiary).
Proof.
  intros r.
  destruct (createTransferExtrinsic_spec api tokenLocation amount destFee assetOrder
              beneficiary s) as (args & rt & Hgrow & Hrt & Hargs & Hcall).
  fold r in Hgrow, Hargs, Hcall. exists args, rt. split_and!; [|done..].
  destruct (transferAssetsUsingTypeAndThen _ _ _ _) as [[e|tx] w'];
    destruct Hcall as (_ & _ & ->); done.
Qed.

End Transfer.

(** C1. For fixed token location, amount, destination fee and beneficiary, the
    parameters [createTransferExtrinsic] passes to the extrinsic constructor
    with the flag ["token-first"] and with the flag ["dot-first"] are the same
    structures except that the two entries of the [assets.v4] list are swapped:
    destination, reserve type, fee asset, fee reserve type, custom XCM and
    weight limit have the same shape and content in both. The two calls may
    happen in different states of the program. *)
Theorem createTransferExtrinsic_orders_differ_by_swap
    `{JSBuiltins} {W : Type} `{Remote W}
    (api : Api) (tokenLocation : value) (amount destFee beneficiary : string)
    (s1 s2 : state W) :
  H0 `prefix_of` st_heap s1 →
  H0 `prefix_of` st_heap s2 →
  let r1 := createTransferExtrinsic api tokenLocation amount destFee token_first beneficiary s1 in
  let r2 := createTransferExtrinsic api tokenLocation amount destFee dot_first beneficiary s2 in
  let a := token_entry tokenLocation amount in
  let b := dot_entry destFee in
  ∃ args1 args2 reserveType,
    head (trace r1) = Some (EvCall (ReqTransfer api args1)) ∧
    head (trace r2) = Some (EvCall (ReqTransfer api args2)) ∧
    Forall2 (represents (st_heap (final r1))) args1
      (transfer_params (assets_v4 [a; b]) reserveType beneficiary) ∧
    Forall2 (represents (st_heap (final r2))) args2
      (transfer_params (assets_v4 [b; a]) reserveType beneficiary).
Proof.
  intros Hs1 Hs2 r1 r2 a b.
  destruct (createTransferExtrinsic_call api tokenLocation amount destFee token_first
              beneficiary s1) as (args1 & rt1 & Hc1 & _ & Hrt1 & Hargs1).
  destruct (createTransferExtrinsic_call api tokenLocation amount destFee dot_first
              beneficiary s2) as (args2 & rt2 & Hc2 & _ & Hrt2 & Hargs2).
  rewrite (Hrt1 Hs1) in Hargs1. rewrite (Hrt2 Hs2) in Hargs2.
  by exists args1, args2, (reserveType_for tokenLocation).
Qed.

Lemma createTransferExtrinsic_orders_differ_by_swap_witness :
  let s := State H0 ([] : list Scripted.canned) in
  let r1 := @createTransferExtrinsic Scripted.builtins _ Scripted.remote
              2%nat WUD_ASSET_location "50000000000" "29876830" token_first "0x46" s in
  let r2 := @createTransferExtrinsic Scripted.builtins _ Scripted.remote
              2%nat WUD_ASSET_location "50000000000" "29876830" dot_first "0x46" s in
  let a := token_entry WUD_ASSET_location "50000000000" in
  let b := dot_entry "29876830" in
  ∃ args1 args2 reserveType,
    head (trace r1) = Some (EvCall (ReqTransfer 2%nat args1)) ∧
    head (trace r2) = Some (EvCall (ReqTransfer 2%nat args2)) ∧
    Forall2 (represents (st_heap (final r1))) args1
      (transfer_params (assets_v4 [a; b]) reserveType "0x46") ∧
    Forall2 (represents (st_heap (final r2))) args2
      (transfer_params (assets_v4 [b; a]) reserveType "0x46").
Proof.
  apply (@createTransferExtrinsic_orders_differ_by_swap Scripted.builtins _ Scripted.remote);
    reflexivity.
Defined.

(** C2. Which of the two literal shapes [createTransferExtrinsic] gives the
    [assets] parameter depends on the order flag alone: with ["token-first"] the
    list is the token asset (fungible [amount]) followed by the native DOT
    asset (fungible [destFee]); with ["dot-first"] it is the native DOT asset
    followed by the token asset. *)
Theorem createTransferExtrinsic_assets_by_flag
    `{JSBuiltins} {W : Type} `{Remote W}
    (api : Api) (tokenLocation : value) (amount destFee : string)
    (assetOrder : AssetOrder) (beneficiary : string) (s : state W) :
  let r := createTransferExtrinsic api tokenLocation amount destFee assetOrder beneficiary s in
  ∃ destination assets rest,
    head (trace r) = Some (EvCall (ReqTransfer api (destination :: assets :: rest))) ∧
    represents (st_heap (final r)) assets
      match assetOrder with
      | token_first =>
          LObj [ ("v4", LArr [
            LObj [ ("id", LVal tokenLocation); ("fun", LObj [ ("Fungible", lstr amount) ]) ];
            LObj [ ("id", LVal (NATIVE_TOKEN_LOCATION M0));
                   ("fun", LObj [ ("Fungible", lstr destFee) ]) ] ]) ]
      | dot_first =>
          LObj [ ("v4", LArr [
            LObj [ ("id", LVal (NATIVE_TOKEN_LOCATION M0));
                   ("fun", LObj [ ("Fungible", lstr destFee) ]) ];
            LObj [ ("id", LVal tokenLocation); ("fun", LObj [ ("Fungible", lstr amount) ]) ] ]) ]
      end.
Proof.
  intros r.
  destruct (createTransferExtrinsic_call api tokenLocation amount destFee assetOrder
              beneficiary s) as (args & rt & Hc & _ & _ & Hargs).
  fold r in Hc, Hargs. unfold transfer_params in Hargs.
  apply Forall2_cons_inv_r in Hargs as (destination & args' & _ & Hargs & ->).
  apply Forall2_cons_inv_r in Hargs as (assets & rest & Hassets & _ & ->).
  exists destination, assets, rest. split; [done|]. by destruct assetOrder.
Qed.

(** C10, as the code has it. With the module loaded and a token location
    other than the primitive string ["[object Object]"], the reserve type
    passed by [createTransferExtrinsic] is ["DestinationReserve"] exactly when
    the token location is the object [KSM_ASSET.location] and ["LocalReserve"]
    otherwise (also for another object of the same shape); the fee asset is
    [{v4: {parents: 1, interior: "Here"}}], the fee reserve type
    ["LocalReserve"] and the weight limit ["Unlimited"], whatever the order
    flag. *)
Theorem createTransferExtrinsic_reserve_and_fee
    `{JSBuiltins} {W : Type} `{Remote W}
    (api : Api) (tokenLocation : value) (amount destFee : string)
    (assetOrder : AssetOrder) (beneficiary : string) (s : state W) :
  H0 `prefix_of` st_heap s →
  tokenLocation ≠ VStr "[object Object]" →
  let r := createTransferExtrinsic api tokenLocation amount destFee assetOrder beneficiary s in
  read_prop (st_heap s) (KSM_ASSET M0) "location" = inr KSM_ASSET_location ∧
  ∃ destination assets reserveType feeAsset customXcm,
    head (trace r) =
      Some (EvCall (ReqTransfer api [ destination; assets; VStr reserveType; feeAsset;
                                      VStr "LocalReserve"; customXcm; VStr "Unlimited" ])) ∧
    reserveType = (if decide (tokenLocation = KSM_ASSET_location)
                   then "DestinationReserve" else "LocalReserve") ∧
    represents (st_heap (final r)) feeAsset
      (LObj [ ("v4", LObj [ ("parents", lnum 1); ("interior", lstr "Here") ]) ]).
Proof.
  intros Hs Hne r. split; [by apply read_KSM_location|].
  destruct (createTransferExtrinsic_call api tokenLocation amount destFee assetOrder
              beneficiary s) as (args & rt & Hc & Hgrow & Hrt & Hargs).
  fold r in Hc, Hgrow, Hargs. unfold transfer_params in Hargs.
  apply Forall2_cons_inv_r in Hargs as (destination & ? & _ & Hargs & ->).
  apply Forall2_cons_inv_r in Hargs as (assets & ? & _ & Hargs & ->).
  apply Forall2_cons_inv_r in Hargs as (x2 & ? & Hx2 & Hargs & ->).
  apply Forall2_cons_inv_r in Hargs as (feeAsset & ? & Hfee & Hargs & ->).
  apply Forall2_cons_inv_r in Hargs as (x4 & ? & Hx4 & Hargs & ->).
  apply Forall2_cons_inv_r in Hargs as (customXcm & ? & _ & Hargs & ->).
  apply Forall2_cons_inv_r in Hargs as (x6 & ? & Hx6 & Hargs & ->).
  apply Forall2_nil_inv_r in Hargs as ->.
  inversion Hx2; subst. inversion Hx4; subst. inversion Hx6; subst.
  eexists _, _, _, _, _. split; [exact Hc|]. split.
  - rewrite (Hrt Hs), reserveType_for_cases.
    destruct (decide (tokenLocation = KSM_ASSET_location)) as [->|Hx].
    + rewrite bool_decide_eq_true_2; [done|by left].
    + rewrite bool_decide_eq_false_2; [done|by intros [|]].
  - inversion Hfee as [|l kvs props Hl Hkvs|]; subst.
    econstructor; [exact Hl|].
    apply Forall2_cons_inv_r in Hkvs as ([k v] & kvs' & [Hk Hv] & Hkvs & ->).
    apply Forall2_nil_inv_r in Hkvs as ->. simpl in Hk, Hv. subst k.
    inversion Hv; subst.
    constructor; [|constructor]. split; [done|]. simpl.
    apply represents_native. by etrans.
Qed.

Lemma createTransferExtrinsic_reserve_and_fee_witness :
  let s := State H0 ([] : list Scripted.canned) in
  let r := @createTransferExtrinsic Scripted.builtins _ Scripted.remote
             2%nat KSM_ASSET_location "50000000000" "18718740000" dot_first "0x46" s in
  read_prop H0 (KSM_ASSET M0) "location" = inr KSM_ASSET_location ∧
  ∃ destination assets reserveType feeAsset customXcm,
    head (trace r) =
      Some (EvCall (ReqTransfer 2%nat [ destination; assets; VStr reserveType; feeAsset;
                                        VStr "LocalReserve"; customXcm; VStr "Unlimited" ])) ∧
    reserveType = "DestinationReserve" ∧
    represents (st_heap (final r)) feeAsset
      (LObj [ ("v4", LObj [ ("parents", lnum 1); ("interior", lstr "Here") ]) ]).
Proof.
  apply (@createTransferExtrinsic_reserve_and_fee Scripted.builtins _ Scripted.remote
           2%nat KSM_ASSET_location "50000000000" "18718740000" dot_first "0x46"
           (State H0 [])); [reflexivity|discriminate].
Defined.

(** C10 as stated fails for one value: handed the string ["[object Object]"]
    as token location, which is not the object [KSM_ASSET.location],
    [createTransferExtrinsic] passes the reserve type ["DestinationReserve"]. *)
Lemma createTransferExtrinsic_reserve_string_counterexample :
  let tokenLocation := VStr "[object Object]" in
  let r := @createTransferExtrinsic Scripted.builtins _ Scripted.remote
             2%nat tokenLocation "50000000000" "18718740000" token_first "0x46"
             (State H0 ([] : list Scripted.canned)) in
  bool_decide (tokenLocation = KSM_ASSET_location) = false ∧
  ∃ destination assets feeAsset customXcm,
    head (trace r) =
      Some (EvCall (ReqTransfer 2%nat [ destination; assets; VStr "DestinationReserve";
                                        feeAsset; VStr "LocalReserve"; customXcm;
                                        VStr "Unlimited" ])).
Proof. split; [reflexivity|]. vm_compute. by eexists _, _, _, _. Qed.

(** ** The shape of the traces *)

Section Shapes.
Context `{JSBuiltins} {W : Type} `{Remote W}.

Lemma asset_reads_mono h h' asset symbol location :
  h `prefix_of` h' → asset_reads h asset symbol location → asset_reads h' asset symbol location.
Proof. intros Hpre Hr h'' Hpre'. apply Hr. by etrans. Qed.

(** A [try] statement completes normally, unless its [catch] clause throws:
    that is when the dry run is rejected with a reason of which [message]
    cannot be read. *)
Lemma try_block_spec api asset symbol location testAccount tx label s :
  asset_reads (st_heap s) asset symbol location →
  wp (try_catch (dryRunAndReport api asset testAccount tx label)
                (reportException asset label))
     (λ o s' t, st_heap s `prefix_of` st_heap s' ∧
                ((o = Ret tt ∧ attempt api symbol label tx t) ∨
                 (∃ origin e error,
                    o = Throw error ∧ read_message e = inl error ∧
                    t = uncaught api tx origin e))) s.
Proof.
  intros Hasset. unfold dryRunAndReport, reportException.
  wp_step. wp_step. apply wp_new; intros origin h1 _ Hpre1 _.
  destruct (Hasset h1 Hpre1) as (_ & symv & Hsym & Hstr).
  do 3 wp_step. cbn [st_heap st_world].
  apply wp_await.
  - intros r w' _. cbn [st_heap st_world].
    assert (∀ Q : outcome bool → state W → list event → Prop,
      Q (Ret (dry_run_succeeded r)) (State h1 w') [] →
      wp (if isOk r then ok ← lift (asOk r); mret (isOk (executionResult ok)) else mret false)
         Q (State h1 w')) as Hsuccess.
    { intros Q HQ. destruct r as [[[ok|e]]|e]; simpl in *; by repeat wp_step. }
    wp_step. apply Hsuccess. clear Hsuccess.
    do 2 wp_step. cbn [st_heap st_world]. rewrite Hsym.
    do 4 wp_step. cbn [st_heap st_world]. rewrite Hstr.
    assert (∀ Q : outcome unit → state W → list event → Prop,
      Q (Ret tt) (State h1 w')
        match dry_run_error r with
        | Some e => [ EvLog [ PStr "   ğŸ“‹ Error details:"; PStr (JSON_stringify (toHuman e)) ] ]
        | None => []
        end →
      wp (if negb (dry_run_succeeded r) then
            error ← (if isOk r
                     then ok ← lift (asOk r); e ← lift (asErr (executionResult ok));
                          mret (toHuman e)
                     else e ← lift (asErr r); mret (toHuman e));
            console_log [ PStr "   ğŸ“‹ Error details:"; PStr (JSON_stringify error) ]
          else mret tt)
         Q (State h1 w')) as Hdetails.
    { intros Q HQ. destruct r as [[[ok|e]]|e]; simpl in *; by repeat wp_step. }
    apply Hdetails. clear Hdetails. split; [done|]. left. split; [done|].
    simpl. apply attempt_answered.
  - intros e w' _. cbn [st_heap st_world].
    do 2 wp_step. cbn [st_heap st_world]. rewrite Hsym.
    do 3 wp_step. cbn [st_heap st_world].
    destruct (read_message e) as [error|message] eqn:Hread.
    + split; [done|]. right. by exists origin, e, error.
    + do 2 wp_step. cbn [st_heap st_world]. rewrite Hstr. split; [done|]. left.
      split; [done|]. simpl. by apply attempt_rejected.
Qed.

Lemma built_mono h h' tokenLocation amount destFee assetOrder beneficiary args :
  h `prefix_of` h' →
  built h tokenLocation amount destFee assetOrder beneficiary args →
  built h' tokenLocation amount destFee assetOrder beneficiary args.
Proof.
  intros Hpre Hb. eapply Forall2_impl; [exact Hb|]. intros v t. by apply represents_mono.
Qed.

Lemma createTransferExtrinsic_cases api tokenLocation amount destFee assetOrder beneficiary s :
  H0 `prefix_of` st_heap s →
  wp (createTransferExtrinsic api tokenLocation amount destFee assetOrder beneficiary)
     (λ o s' t,
        st_heap s `prefix_of` st_heap s' ∧
        ∃ args,
          built (st_heap s') tokenLocation amount destFee assetOrder beneficiary args ∧
          ((∃ tx, o = Ret tx ∧
                  t = [EvCall (ReqTransfer api args); EvReturned (RepExtrinsic tx)]) ∨
           (∃ e, o = Throw e ∧ t = [EvCall (ReqTransfer api args); EvThrew e]))) s.
Proof.
  intros Hs. eapply wp_conseq; [apply createTransferExtrinsic_spec|].
  intros o s' t (args & rt & Hgrow & Hrt & Hargs & Hcall). split; [done|].
  exists args. split; [unfold built; by rewrite <-(Hrt Hs)|].
  destruct (transferAssetsUsingTypeAndThen _ _ _ _) as [[e|tx] w'];
    destruct Hcall as (-> & _ & ->); eauto.
Qed.

Lemma asset_test_mono api h h' symbol location testAccount amount fee t o :
  h `prefix_of` h' →
  asset_test api h symbol location testAccount amount fee t o →
  asset_test api h' symbol location testAccount amount fee t o.
Proof.
  intros Hpre [] ; econstructor; eauto using built_mono.
Qed.

Lemma testAssetOrdering_spec api asset symbol location testAccount amount fee s :
  H0 `prefix_of` st_heap s →
  asset_reads (st_heap s) asset symbol location →
  wp (testAssetOrdering api asset testAccount amount fee)
     (λ o s' t, st_heap s `prefix_of` st_heap s' ∧
                asset_test api (st_heap s') symbol location testAccount amount fee t o) s.
Proof.
  intros Hs Hasset. unfold testAssetOrdering.
  destruct (Hasset (st_heap s)) as (Hloc & symv & Hsym & Hstr); [done|].
  do 2 wp_step. rewrite Hsym. do 4 wp_step. rewrite Hstr.
  do 2 wp_step. rewrite Hloc. wp_step.
  eapply wp_conseq; [by apply createTransferExtrinsic_cases|].
  intros o s1 t1 (Hpre1 & args1 & Hargs1 & [(tx1 & -> & ->)|(e & -> & ->)]).
  2:{ split; [done|]. by apply asset_test_first_threw. }
  wp_step. cbn beta iota.
  eapply wp_conseq; [apply (try_block_spec _ _ symbol location); by eapply asset_reads_mono|].
  intros o s2 t2 (Hpre2 & [(-> & Hatt1)|(origin1 & e1 & error1 & -> & Hread1 & ->)]).
  2:{ split; [by etrans|]. simpl.
      apply (asset_test_first_uncaught _ _ _ _ _ _ _ args1 tx1 origin1 e1 error1); [|done].
      by apply (built_mono (st_heap s1)). }
  assert (asset_reads (st_heap s2) asset symbol location) as Hasset2
    by (eapply asset_reads_mono; [|exact Hasset]; by repeat (etrans; [eassumption|])).
  assert (H0 `prefix_of` st_heap s2) as Hs2 by (by repeat (etrans; [eassumption|])).
  destruct (Hasset2 (st_heap s2)) as (Hloc2 & symv2 & Hsym2 & Hstr2); [done|].
  do 2 wp_step. rewrite Hsym2. do 4 wp_step. rewrite Hstr2.
  do 2 wp_step. rewrite Hloc2. wp_step.
  eapply wp_conseq; [by apply createTransferExtrinsic_cases|].
  intros o s3 t3 (Hpre3 & args2 & Hargs2 & [(tx2 & -> & ->)|(e & -> & ->)]).
  2:{ split; [by repeat (etrans; [eassumption|])|]. simpl.
      apply (asset_test_second_threw _ _ _ _ _ _ _ args1 tx1 t2 args2 e); [|done..].
      apply (built_mono (st_heap s1)); [by transitivity (st_heap s2)|done]. }
  eapply wp_conseq; [apply (try_block_spec _ _ symbol location); by eapply asset_reads_mono|].
  intros o s4 t4 (Hpre4 & [(-> & Hatt2)|(origin2 & e2 & error2 & -> & Hread2 & ->)]).
  - split; [by repeat (etrans; [eassumption|])|]. simpl.
    apply (asset_test_done _ _ _ _ _ _ _ args1 tx1 t2 args2 tx2 t4);
      [apply (built_mono (st_heap s1)); [|done]|done|by apply (built_mono (st_heap s3))|done].
    transitivity (st_heap s2); [done|]. by transitivity (st_heap s3).
  - split; [by repeat (etrans; [eassumption|])|]. simpl.
    apply (asset_test_second_uncaught _ _ _ _ _ _ _ args1 tx1 t2 args2 tx2 origin2 e2 error2);
      [apply (built_mono (st_heap s1)); [|done]|done|by apply (built_mono (st_heap s3))|done].
    transitivity (st_heap s2); [done|]. by transitivity (st_heap s3).
Qed.

Lemma WUD_ASSET_reads h :
  H0 `prefix_of` h → asset_reads h (WUD_ASSET M0) "WUD" WUD_ASSET_location.
Proof.
  intros Hpre h' Hpre'. assert (H0 `prefix_of` h') as HH by (by etrans).
  unfold read_prop. simpl. rewrite (H0_lookup h' 5 _ HH eq_refl). simpl.
  split; [done|]. by exists (VStr "WUD").
Qed.

Lemma KSM_ASSET_reads h :
  H0 `prefix_of` h → asset_reads h (KSM_ASSET M0) "KSM" KSM_ASSET_location.
Proof.
  intros Hpre h' Hpre'. assert (H0 `prefix_of` h') as HH by (by etrans).
  unfold read_prop. simpl. rewrite (H0_lookup h' 11 _ HH eq_refl). simpl.
  split; [done|]. by exists (VStr "KSM").
Qed.

(** The top-level [catch] clause, for a caught value [e]. *)
Lemma top_level_catch_spec (e : thrown) (Q : outcome unit → state W → list event → Prop)
    (s : state W) :
  Q (fatal_outcome e) s (fatal e) →
  wp (message ← lift (read_message e);
      console_error [ PStr "âŒ Error:"; PVal message ];; process_exit 1) Q s.
Proof.
  unfold fatal_outcome, fatal. intros HQ. do 2 wp_step.
  destruct (read_message e) as [error|message]; [done|]. by do 2 wp_step.
Qed.

Lemma demonstrateAssetOrderingBug_spec env s :
  H0 `prefix_of` st_heap s →
  wp (demonstrateAssetOrderingBug env)
     (λ o s' t, st_heap s `prefix_of` st_heap s' ∧
                driver_run (st_heap s') (POLKADOT_ASSET_HUB_WSS env) t o) s.
Proof.
  intros Hs. unfold demonstrateAssetOrderingBug, demonstrate_body.
  set (endpoint := POLKADOT_ASSET_HUB_WSS env).
  do 12 wp_step. apply wp_call.
  2:{ intros e w' _. apply top_level_catch_spec. split; [done|]. apply run_no_provider. }
  intros p w1 _. cbn [st_heap st_world]. wp_step. apply wp_await.
  2:{ intros e w' _. apply top_level_catch_spec. split; [done|]. apply run_no_api. }
  intros api w2 _. cbn [st_heap st_world]. wp_step.
  eapply wp_conseq;
    [apply (testAssetOrdering_spec _ _ "WUD" WUD_ASSET_location); [done|by apply WUD_ASSET_reads]|].
  cbn [st_heap st_world].
  intros o s1 t1 [Hpre1 Ht1]. destruct o as [[]|e|c].
  2:{ apply top_level_catch_spec. split; [done|]. rewrite <-?app_assoc.
      by apply (run_WUD_threw _ _ p api t1 e). }
  2:{ inversion Ht1. }
  wp_step.
  eapply wp_conseq;
    [apply (testAssetOrdering_spec _ _ "KSM" KSM_ASSET_location);
     [by etrans|apply KSM_ASSET_reads; by etrans]|].
  intros o s2 t2 [Hpre2 Ht2]. destruct o as [[]|e|c].
  2:{ apply top_level_catch_spec. split; [by etrans|]. rewrite <-?app_assoc.
      apply (run_KSM_threw _ _ p api t1 t2 e); [by eapply asset_test_mono|done]. }
  2:{ inversion Ht2. }
  apply wp_await.
  - intros [] w3 _. cbn [st_heap st_world]. split; [by etrans|]. rewrite <-?app_assoc.
    apply (run_complete _ _ p api t1 t2); [by eapply asset_test_mono|done].
  - intros e w3 _. cbn [st_heap st_world]. apply top_level_catch_spec. split; [by etrans|].
    rewrite <-?app_assoc.
    apply (run_disconnect_rejected _ _ p api t1 t2 e); [by eapply asset_test_mono|done].
Qed.

End Shapes.

(** ** Runs of the driver *)

Section Driver.
Context `{JSBuiltins} {W : Type} `{Remote W}.

Lemma run_driver_shape env w :
  driver_run (st_heap (final (run_driver env w))) (POLKADOT_ASSET_HUB_WSS env)
    (trace (run_driver env w)) (out (run_driver env w)).
Proof. by destruct (demonstrateAssetOrderingBug_spec env (State H0 w)). Qed.

(** The two ways the top-level [catch] clause can go. *)
Lemma fatal_cases e :
  (∃ message, read_message e = inr message ∧
              fatal e = [ EvError [ PStr "âŒ Error:"; PVal message ]; EvExit 1 ] ∧
              fatal_outcome e = Exit 1) ∨
  (∃ error, read_message e = inl error ∧ fatal e = [] ∧ fatal_outcome e = Throw error).
Proof.
  unfold fatal, fatal_outcome. destruct (read_message e) as [error|message]; [right|left]; eauto.
Qed.

Lemma fatal_outcome_not_ret e : fatal_outcome e ≠ Ret tt.
Proof. unfold fatal_outcome. by destruct (read_message e). Qed.

Lemma fatal_dry_run_calls e : dry_run_calls (fatal e) = 0%nat.
Proof. unfold fatal. by destruct (read_message e). Qed.

(** What reading [message] throws is an error whose message can be read. *)
Lemma read_message_error e error :
  read_message e = inl error → ∃ message, read_message error = inr message.
Proof. destruct e; intros [= <-]; by eexists. Qed.

Lemma dry_run_calls_app t1 t2 : dry_run_calls (t1 ++ t2) = (dry_run_calls t1 + dry_run_calls t2)%nat.
Proof. unfold dry_run_calls. by rewrite List.filter_app, length_app. Qed.

Lemma report_events_dry_run_calls symbol label r : dry_run_calls (report_events symbol label r) = 0%nat.
Proof. unfold report_events. by destruct (dry_run_error r). Qed.

Lemma attempt_dry_run_calls api symbol label tx t :
  attempt api symbol label tx t → dry_run_calls t = 1%nat.
Proof.
  intros [origin e message Hread|origin r]; [done|].
  change (S (dry_run_calls (report_events symbol label r)) = 1%nat).
  by rewrite report_events_dry_run_calls.
Qed.

Lemma asset_test_dry_run_calls api h symbol location acct amt fee t o :
  asset_test api h symbol location acct amt fee t o →
  (dry_run_calls t ≤ 2)%nat ∧ (o = Ret tt → dry_run_calls t = 2%nat).
Proof.
  intros [args e Hb|args tx origin e error Hb Hread|args1 tx1 t1 args2 e Hb1 Ha1 Hb2
         |args1 tx1 t1 args2 tx2 origin e error Hb1 Ha1 Hb2 Hread
         |args1 tx1 t1 args2 tx2 t2 Hb1 Ha1 Hb2 Ha2];
    rewrite ?dry_run_calls_app, ?(attempt_dry_run_calls _ _ _ _ _ Ha1),
      ?(attempt_dry_run_calls _ _ _ _ _ Ha2);
    cbn; split; (done || lia).
Qed.

Lemma driver_run_dry_run_calls h endpoint t o :
  driver_run h endpoint t o →
  (dry_run_calls t ≤ 4)%nat ∧ (o = Ret tt → dry_run_calls t = 4%nat).
Proof.
  intros [e|p e|p api t1 e Ht1|p api t1 t2 e Ht1 Ht2|p api t1 t2 e Ht1 Ht2|p api t1 t2 Ht1 Ht2];
    rewrite ?dry_run_calls_app;
    try (apply asset_test_dry_run_calls in Ht1 as [Hle1 Heq1]);
    try (apply asset_test_dry_run_calls in Ht2 as [Hle2 Heq2]);
    try (specialize (Heq1 eq_refl)); try (specialize (Heq2 eq_refl));
    change (dry_run_calls (banner endpoint)) with 0%nat;
    rewrite ?fatal_dry_run_calls;
    cbn; (split; [lia|]); intros Ho; (by apply fatal_outcome_not_ret in Ho || lia).
Qed.

End Driver.




(** ** Reporting of the dry-run results *)

Section Reports.
Context `{JSBuiltins}.









End Reports.



(** ** Rejected dry runs and failed setup *)

Section Catches.
Context `{JSBuiltins} {W : Type} `{Remote W}.

Lemma catches_quiet_then api tests t rest :
  Forall (λ e, is_dryRunCall e = false) t →
  catches_rejections api tests rest → catches_rejections api tests (t ++ rest).
Proof. induction 1; simpl; [done|]. intros. constructor; auto. Qed.

Lemma fatal_catches api tests e : catches_rejections api tests (fatal e).
Proof. unfold fatal. destruct (read_message e); by repeat constructor. Qed.

Lemma attempt_catches_then api symbol label tx t n tests rest :
  attempt api symbol label tx t →
  catches_rejections api tests (next_step api tests :: rest) →
  catches_rejections api ((n, symbol, label) :: tests) (t ++ next_step api tests :: rest).
Proof.
  intros [origin e message Hread|origin r] Hrest; simpl.
  - by apply catches_caught.
  - apply catches_answered.
    apply (catches_quiet_then _ _ (report_events symbol label r)); [|done].
    unfold report_events. destruct (dry_run_error r); by repeat constructor.
Qed.

Lemma uncaught_catches api tx origin e error test tests :
  read_message e = inl error →
  catches_rejections api (test :: tests) (uncaught api tx origin e ++ fatal error).
Proof.
  intros Hread. destruct (read_message_error _ _ Hread) as [message Hmsg].
  unfold fatal. rewrite Hmsg. by eapply catches_thrown.
Qed.

(** The rejections of one call of [testAssetOrdering] are caught, [rest] being
    what the driver does after the call. *)
Lemma asset_test_catches_then api h symbol location acct amt fee t o tests rest :
  asset_test api h symbol location acct amt fee t o →
  (o = Ret tt →
   ∃ rest', rest = next_step api tests :: rest' ∧ catches_rejections api tests rest) →
  (∀ e, o = Throw e → rest = fatal e) →
  catches_rejections api
    (("1", symbol, "token-first") :: ("2", symbol, "DOT-first") :: tests) (t ++ rest).
Proof.
  intros [args e Hb|args tx origin e error Hb Hread|args1 tx1 t1 args2 e Hb1 Ha1 Hb2
         |args1 tx1 t1 args2 tx2 origin e error Hb1 Ha1 Hb2 Hread
         |args1 tx1 t1 args2 tx2 t2 Hb1 Ha1 Hb2 Ha2] Hret Hthrow;
    try (rewrite (Hthrow _ eq_refl)); rewrite <-?app_assoc;
    (apply (catches_quiet_then _ _ [_; _; _]); [by repeat constructor|]).
  - apply fatal_catches.
  - by apply uncaught_catches.
  - eapply (attempt_catches_then _ _ _ tx1 _ _ (("2", symbol, "DOT-first") :: tests));
      [exact Ha1|].
    apply (catches_quiet_then _ _ [_; _; _]); [by repeat constructor|]. apply fatal_catches.
  - eapply (attempt_catches_then _ _ _ tx1 _ _ (("2", symbol, "DOT-first") :: tests));
      [exact Ha1|].
    apply (catches_quiet_then _ _ [_; _; _]); [by repeat constructor|].
    by apply uncaught_catches.
  - destruct Hret as (rest' & -> & Hrest); [done|].
    eapply (attempt_catches_then _ _ _ tx1 _ _ (("2", symbol, "DOT-first") :: tests));
      [exact Ha1|].
    apply (catches_quiet_then _ _ [_; _; _]); [by repeat constructor|].
    by eapply attempt_catches_then.
Qed.

Lemma asset_test_starts api h symbol location acct amt fee t o :
  asset_test api h symbol location acct amt fee t o →
  ∃ rest, t = EvLog [ PStr (announce_line "1" symbol "token-first") ] :: rest.
Proof. intros []; by eexists. Qed.

Lemma driver_run_catches_rejections h endpoint t o :
  driver_run h endpoint t o → ∃ api, catches_rejections api driver_tests t.
Proof.
  intros [e|p e|p api t1 e Ht1|p api t1 t2 e Ht1 Ht2|p api t1 t2 e Ht1 Ht2|p api t1 t2 Ht1 Ht2];
    [exists 0%nat|exists 0%nat|exists api..];
    (apply catches_quiet_then; [by repeat constructor|]);
    try (apply (catches_quiet_then _ _ (connected endpoint p api)); [by repeat constructor|]).
  - apply (catches_quiet_then _ _ [_; _]); [by repeat constructor|]. apply fatal_catches.
  - apply (catches_quiet_then _ _ [_; _; _; _]); [by repeat constructor|]. apply fatal_catches.
  - eapply asset_test_catches_then; [exact Ht1|done|]. by intros ? [= ->].
  - destruct (asset_test_starts _ _ _ _ _ _ _ _ _ Ht2) as [rest2 Hrest2].
    eapply asset_test_catches_then; [exact Ht1| |done].
    intros _. exists (rest2 ++ fatal e). rewrite Hrest2. split; [done|]. rewrite <-Hrest2.
    eapply asset_test_catches_then; [exact Ht2|done|]. by intros ? [= ->].
  - destruct (asset_test_starts _ _ _ _ _ _ _ _ _ Ht2) as [rest2 Hrest2].
    eapply asset_test_catches_then; [exact Ht1| |done].
    intros _. eexists. rewrite Hrest2. split; [done|]. rewrite <-Hrest2.
    eapply asset_test_catches_then; [exact Ht2| |done].
    intros _. eexists. split; [done|].
    apply (catches_quiet_then _ _ [_; _]); [by repeat constructor|]. apply fatal_catches.
  - destruct (asset_test_starts _ _ _ _ _ _ _ _ _ Ht2) as [rest2 Hrest2].
    eapply asset_test_catches_then; [exact Ht1| |done].
    intros _. eexists. rewrite Hrest2. split; [done|]. rewrite <-Hrest2.
    eapply asset_test_catches_then; [exact Ht2| |done].
    intros _. eexists. split; [done|]. by repeat constructor.
Qed.

(** How a run of the driver ends: it completes; or the top-level [catch]
    clause ends the process with code 1; or that clause throws, what it caught
    being [undefined] or [null]. *)
Lemma driver_run_outcome h endpoint t o :
  driver_run h endpoint t o →
  o = Ret tt ∨ o = Exit 1 ∨ ∃ e error, o = Throw error ∧ read_message e = inl error.
Proof.
  intros [e|p e|p api t1 e Ht1|p api t1 t2 e Ht1 Ht2|p api t1 t2 e Ht1 Ht2|p api t1 t2 Ht1 Ht2];
    [..|by left];
    (destruct (fatal_cases e) as [(message & _ & _ & ->)|(error & Hread & _ & ->)];
     [by right; left|right; right; by exists e, error]).
Qed.

(** The run when the provider cannot be constructed. *)
Lemma run_driver_provider_throws env w e w1 :
  WsProvider_new (POLKADOT_ASSET_HUB_WSS env) w = (inl e, w1) →
  wp (demonstrateAssetOrderingBug env)
     (λ o _ t, o = fatal_outcome e ∧
               t = banner (POLKADOT_ASSET_HUB_WSS env) ++
                   [ EvCall (ReqWsProvider (POLKADOT_ASSET_HUB_WSS env)); EvThrew e ] ++
                   fatal e)
     (State H0 w).
Proof.
  intros Hnew. unfold demonstrateAssetOrderingBug, demonstrate_body.
  do 12 wp_step. apply wp_call; cbn [st_world]; rewrite Hnew; intros x w' [= <- <-].
  by apply top_level_catch_spec.
Qed.

(** The run when the API cannot be created. *)
Lemma run_driver_create_rejects env w p w1 e w2 :
  WsProvider_new (POLKADOT_ASSET_HUB_WSS env) w = (inr p, w1) →
  ApiPromise_create p w1 = (inl e, w2) →
  wp (demonstrateAssetOrderingBug env)
     (λ o _ t, o = fatal_outcome e ∧
               t = banner (POLKADOT_ASSET_HUB_WSS env) ++
                   [ EvCall (ReqWsProvider (POLKADOT_ASSET_HUB_WSS env));
                     EvReturned (RepProvider p);
                     EvAsyncCall (ReqCreate p); EvRejected e ] ++ fatal e)
     (State H0 w).
Proof.
  intros Hnew Hcreate. unfold demonstrateAssetOrderingBug, demonstrate_body.
  do 12 wp_step. apply wp_call; cbn [st_world]; rewrite Hnew; intros x w' [= <- <-].
  wp_step. apply wp_await; cbn [st_world]; rewrite Hcreate; intros y w'' [= <- <-].
  by apply top_level_catch_spec.
Qed.

(** The program (lines 275-280). When the module is not the entry point,
    nothing runs. When it is, the driver runs, and the handler attached to its
    call is entered exactly when the driver throws: it prints what was thrown
    and ends the process with code 1. *)
Lemma run_program_entry import_meta_url argv env w :
  run_program import_meta_url argv env w =
    if decide (import_meta_url = "file://" +:+ default "undefined" (argv !! 1%nat))
    then match out (run_driver env w) with
         | Throw e =>
             Ran (Exit 1) (final (run_driver env w))
                 (trace (run_driver env w) ++
                  [ EvError [ PStr "âŒ Demo failed:"; PErr e ]; EvExit 1 ])
         | _ => run_driver env w
         end
    else Ran (Ret tt) (State H0 w) [].
Proof.
  unfold run_program, main. case_decide; [|done].
  unfold run_driver, try_catch.
  by destruct (demonstrateAssetOrderingBug env (State H0 w)) as [[[]|e|c] s' t].
Qed.

(** Run as a program, a driver that does not complete ends with code 1. *)
Lemma run_program_exit argv env w :
  out (run_driver env w) ≠ Ret tt →
  out (run_program ("file://" +:+ default "undefined" (argv !! 1%nat)) argv env w) = Exit 1.
Proof.
  intros Ho. rewrite run_program_entry. rewrite decide_True by done.
  destruct (driver_run_outcome _ _ _ _ (run_driver_shape env w))
    as [?|[Hexit|(e & error & Hthrow & _)]]; [done|by rewrite Hexit|by rewrite Hthrow].
Qed.

End Catches.

(** C5, as the code has it. In every run of the driver the dry runs of the
    four tests are each made in a [try] statement of their own: one that is
    rejected with a reason whose [message] can be read is directly followed
    by the line of the [catch] clause of that test, with that message, and
    then by the next step of the script (the announcement of the very next
    test, or the call of [disconnect] after the last), so that a complete run
    has made all four dry runs; one rejected with [undefined] or [null] makes
    the [catch] clause throw, and the run ends in the top-level [catch]
    clause. A failure of the setup (the construction of the provider throws,
    or the creation of the API is rejected) is caught at the top level: the
    message of what was caught is written to the error stream and the process
    ends with code 1; when that message cannot be read the driver throws, and
    run as a program it still ends with code 1, in the last handler. *)
Theorem driver_catches_failures `{JSBuiltins} {W : Type} `{Remote W}
    (env : gmap string string) (w : W) :
  let r := run_driver env w in
  let endpoint := POLKADOT_ASSET_HUB_WSS env in
  (∃ api, catches_rejections api driver_tests (trace r)) ∧
  (out r = Ret tt → dry_run_calls (trace r) = 4%nat) ∧
  (∀ e w1,
     WsProvider_new endpoint w = (inl e, w1) →
     match read_message e with
     | inr message =>
         out r = Exit 1 ∧
         trace r = banner endpoint ++
                   [ EvCall (ReqWsProvider endpoint); EvThrew e;
                     EvError [ PStr "âŒ Error:"; PVal message ]; EvExit 1 ]
     | inl error =>
         out r = Throw error ∧
         trace r = banner endpoint ++ [ EvCall (ReqWsProvider endpoint); EvThrew e ]
     end ∧
     ∀ argv,
       out (run_program ("file://" +:+ default "undefined" (argv !! 1%nat)) argv env w)
         = Exit 1) ∧
  (∀ p w1 e w2,
     WsProvider_new endpoint w = (inr p, w1) →
     ApiPromise_create p w1 = (inl e, w2) →
     match read_message e with
     | inr message =>
         out r = Exit 1 ∧
         trace r = banner endpoint ++
                   [ EvCall (ReqWsProvider endpoint); EvReturned (RepProvider p);
                     EvAsyncCall (ReqCreate p); EvRejected e;
                     EvError [ PStr "âŒ Error:"; PVal message ]; EvExit 1 ]
     | inl error =>
         out r = Throw error ∧
         trace r = banner endpoint ++
                   [ EvCall (ReqWsProvider endpoint); EvReturned (RepProvider p);
                     EvAsyncCall (ReqCreate p); EvRejected e ]
     end ∧
     ∀ argv,
       out (run_program ("file://" +:+ default "undefined" (argv !! 1%nat)) argv env w)
         = Exit 1).
Proof.
  intros r endpoint. split_and!.
  - eapply driver_run_catches_rejections, run_driver_shape.
  - eapply driver_run_dry_run_calls, run_driver_shape.
  - intros e w1 Hnew.
    destruct (run_driver_provider_throws env w e w1 Hnew) as [Ho Ht].
    change (out r = fatal_outcome e) in Ho. split.
    + unfold fatal_outcome, fatal in *. destruct (read_message e); (split; [exact Ho|exact Ht]).
    + intros argv. apply run_program_exit. change (out r ≠ Ret tt).
      rewrite Ho. apply fatal_outcome_not_ret.
  - intros p w1 e w2 Hnew Hcreate.
    destruct (run_driver_create_rejects env w p w1 e w2 Hnew Hcreate) as [Ho Ht].
    change (out r = fatal_outcome e) in Ho. split.
    + unfold fatal_outcome, fatal in *. destruct (read_message e); (split; [exact Ho|exact Ht]).
    + intros argv. apply run_program_exit. change (out r ≠ Ret tt).
      rewrite Ho. apply fatal_outcome_not_ret.
Qed.

Lemma driver_catches_failures_witness :
  let w := [ Scripted.Accept; Scripted.Accept; Scripted.Accept; Scripted.Refuse "timeout" ] in
  let r := @run_driver Scripted.builtins _ Scripted.remote ∅ w in
  (∃ api, catches_rejections api driver_tests (trace r)) ∧
  dry_run_calls (trace r) = 4%nat ∧
  take 4 (drop 12 (trace r)) =
    [ EvAsyncCall (ReqDryRunCall 2%nat (VRef 39) 38%nat 4);
      EvRejected (Thrown (VStr "timeout"));
      EvLog [ PStr "   âŒ WUD token-first: EXCEPTION -"; PVal (VStr "timeout") ];
      EvLog [ PStr "2. Testing WUD with DOT-first ordering..." ] ].
Proof.
  destruct (@driver_catches_failures Scripted.builtins _ Scripted.remote ∅
              [ Scripted.Accept; Scripted.Accept; Scripted.Accept; Scripted.Refuse "timeout" ])
    as (Hcatch & Hfour & _).
  split; [exact Hcatch|]. split; [apply Hfour|]; reflexivity.
Defined.

(** C5 as stated fails: a promise can be rejected with any value, and when the
    dry run is rejected with [undefined] the [catch] clause of line 204 does
    not print the message and the script does not go on: reading
    [error.message] throws there, the top-level [catch] clause prints the
    message of that [TypeError] and the process ends with code 1 after one dry
    run, nothing having been printed for it. *)
Lemma driver_rejection_not_caught_counterexample :
  let w := [ Scripted.Accept; Scripted.Accept; Scripted.Accept;
             Scripted.RefuseWith ThrownUndefined ] in
  let r := @run_driver Scripted.builtins _ Scripted.remote ∅ w in
  out r = Exit 1 ∧
  dry_run_calls (trace r) = 1%nat ∧
  drop 12 (trace r) =
    [ EvAsyncCall (ReqDryRunCall 2%nat (VRef 39) 38%nat 4);
      EvRejected ThrownUndefined;
      EvError [ PStr "âŒ Error:";
                PVal (VStr "Cannot read properties of undefined (reading 'message')") ];
      EvExit 1 ] ∧
  length (stdout (trace r)) = 6%nat.
Proof. by vm_compute. Qed.

(** ** The order of the dry runs *)

Section Order.
Context `{JSBuiltins} {W : Type} `{Remote W}.

Lemma one_at_a_time_app t1 t2 :
  one_at_a_time t1 → one_at_a_time t2 → one_at_a_time (t1 ++ t2).
Proof. intros Ht1 Ht2. induction Ht1; simpl; [done|by constructor..]. Qed.

Lemma attempt_one_at_a_time api symbol label tx t :
  attempt api symbol label tx t → one_at_a_time t.
Proof.
  intros [origin e message Hread|origin r]; [by repeat constructor|].
  constructor. unfold report_events. destruct (dry_run_error r); by repeat constructor.
Qed.

Lemma fatal_one_at_a_time e : one_at_a_time (fatal e).
Proof. unfold fatal. destruct (read_message e); by repeat constructor. Qed.

Lemma asset_test_one_at_a_time api h symbol location acct amt fee t o :
  asset_test api h symbol location acct amt fee t o → one_at_a_time t.
Proof.
  intros [];
    repeat first [ apply one_at_a_time_app
                 | by eapply attempt_one_at_a_time
                 | by repeat constructor ].
Qed.

Lemma driver_run_one_at_a_time h endpoint t o :
  driver_run h endpoint t o → one_at_a_time t.
Proof.
  intros [];
    repeat first [ apply one_at_a_time_app
                 | by eapply asset_test_one_at_a_time
                 | apply fatal_one_at_a_time
                 | by repeat constructor ].
Qed.

Lemma fatal_submission_events e : submission_events (fatal e) = [].
Proof. unfold fatal. by destruct (read_message e). Qed.

Lemma submission_events_app t1 t2 :
  submission_events (t1 ++ t2) = submission_events t1 ++ submission_events t2.
Proof. apply List.filter_app. Qed.

Lemma attempt_submission_events api symbol label tx t :
  attempt api symbol label tx t →
  ∃ origin, submission_events t = [ EvAsyncCall (ReqDryRunCall api origin tx 4) ].
Proof.
  intros [origin e message Hread|origin r]; exists origin; [done|].
  unfold report_events. by destruct (dry_run_error r).
Qed.

Lemma asset_test_follows_plan api h symbol location fee t o items rest :
  asset_test api h symbol location driver_account driver_amount fee t o →
  follows_plan h api items rest →
  (o ≠ Ret tt → rest = []) →
  follows_plan h api ((location, token_first, fee) :: (location, dot_first, fee) :: items)
    (submission_events t ++ rest) ∧
  (o = Ret tt → length (submission_events t) = 6%nat).
Proof.
  intros [args e Hb|args tx origin e error Hb Hread|args1 tx1 t1 args2 e Hb1 Ha1 Hb2
         |args1 tx1 t1 args2 tx2 origin e error Hb1 Ha1 Hb2 Hread
         |args1 tx1 t1 args2 tx2 t2 Hb1 Ha1 Hb2 Ha2]
    Hrest Hstop; rewrite ?submission_events_app.
  - rewrite Hstop by done. split; [|done]. by apply plan_construction_threw.
  - rewrite Hstop by done. split; [|done]. apply plan_submitted; [done|apply plan_stop].
  - rewrite Hstop by done. split; [|done].
    destruct (attempt_submission_events _ _ _ _ _ Ha1) as [origin1 ->].
    apply plan_submitted; [done|]. by apply plan_construction_threw.
  - rewrite Hstop by done. split; [|done].
    destruct (attempt_submission_events _ _ _ _ _ Ha1) as [origin1 ->].
    apply plan_submitted; [done|]. apply plan_submitted; [done|apply plan_stop].
  - destruct (attempt_submission_events _ _ _ _ _ Ha1) as [origin1 ->].
    destruct (attempt_submission_events _ _ _ _ _ Ha2) as [origin2 ->].
    split; [|done].
    apply plan_submitted; [done|]. by apply plan_submitted.
Qed.

Lemma driver_run_follows_plan h endpoint t o :
  driver_run h endpoint t o →
  ∃ api, follows_plan h api plan (submission_events t) ∧
         (o = Ret tt → length (submission_events t) = 12%nat).
Proof.
  intros [e|p e|p api t1 e Ht1|p api t1 t2 e Ht1 Ht2|p api t1 t2 e Ht1 Ht2|p api t1 t2 Ht1 Ht2];
    rewrite ?submission_events_app, ?fatal_submission_events, ?app_nil_r;
    change (submission_events (banner endpoint)) with (@nil event).
  - exists 0%nat. split; [apply plan_stop|by intros ?%fatal_outcome_not_ret].
  - exists 0%nat. split; [apply plan_stop|by intros ?%fatal_outcome_not_ret].
  - exists api. split; [|by intros ?%fatal_outcome_not_ret].
    eapply (asset_test_follows_plan _ _ _ _ _ _ _ _ []) in Ht1 as [Ht1 _];
      [|apply plan_stop|done].
    by rewrite app_nil_r in Ht1.
  - exists api. split; [|by intros ?%fatal_outcome_not_ret].
    eapply (asset_test_follows_plan _ _ _ _ _ _ _ _ []) in Ht2 as [Ht2 _];
      [|apply plan_stop|done].
    rewrite app_nil_r in Ht2.
    eapply asset_test_follows_plan in Ht1 as [Ht1 _]; [exact Ht1|exact Ht2|done].
  - exists api. split; [|by intros ?%fatal_outcome_not_ret].
    eapply (asset_test_follows_plan _ _ _ _ _ _ _ _ []) in Ht2 as [Ht2 _];
      [|apply plan_stop|done].
    rewrite ?app_nil_r in Ht2.
    eapply asset_test_follows_plan in Ht1 as [Ht1 _]; [exact Ht1|exact Ht2|done].
  - exists api.
    eapply (asset_test_follows_plan _ _ _ _ _ _ _ _ []) in Ht2 as [Ht2 Hn2];
      [|apply plan_stop|done].
    rewrite ?app_nil_r in Ht2.
    eapply asset_test_follows_plan in Ht1 as [Ht1 Hn1]; [|exact Ht2|done].
    split; [exact Ht1|]. intros _. rewrite !length_app, Hn1, Hn2 by done. done.
Qed.

End Order.

(** C6. In every run of the driver the calls are made one at a time, each
    settled before the next event; the extrinsics are constructed and
    submitted to the dry run in the order WUD token-first, WUD DOT-first, KSM
    token-first, KSM DOT-first, each submission being that of the extrinsic
    just constructed; and a complete run makes all four. *)
Theorem driver_runs_plan_in_sequence `{JSBuiltins} {W : Type} `{Remote W}
    (env : gmap string string) (w : W) :
  let r := run_driver env w in
  one_at_a_time (trace r) ∧
  ∃ api,
    follows_plan (st_heap (final r)) api plan (submission_events (trace r)) ∧
    (out r = Ret tt → length (submission_events (trace r)) = 12%nat).
Proof.
  intros r. split.
  - eapply driver_run_one_at_a_time, run_driver_shape.
  - eapply driver_run_follows_plan, run_driver_shape.
Qed.

Lemma driver_runs_plan_in_sequence_witness :
  let r := @run_driver Scripted.builtins _ Scripted.remote ∅ [] in
  out r = Ret tt ∧ length (submission_events (trace r)) = 12%nat.
Proof.
  split; [reflexivity|].
  destruct (@driver_runs_plan_in_sequence Scripted.builtins _ Scripted.remote ∅ [])
    as (_ & api & _ & Hlen).
  apply Hlen. reflexivity.
Defined.

(** ** The connection *)

Section Connection.
Context `{JSBuiltins} {W : Type} `{Remote W}.

Lemma requests_app t1 t2 : requests (t1 ++ t2) = requests t1 ++ requests t2.
Proof. apply omap_app. Qed.

Lemma providers_returned_app t1 t2 :
  providers_returned (t1 ++ t2) = providers_returned t1 ++ providers_returned t2.
Proof. apply omap_app. Qed.

Lemma apis_created_app t1 t2 : apis_created (t1 ++ t2) = apis_created t1 ++ apis_created t2.
Proof. apply omap_app. Qed.

Lemma attempt_requests api symbol label tx t :
  attempt api symbol label tx t →
  (∃ origin, requests t = [ ReqDryRunCall api origin tx 4 ]) ∧
  providers_returned t = [] ∧ apis_created t = [].
Proof.
  intros [origin e message Hread|origin r]; [split; [by exists origin|done]|].
  unfold report_events. destruct (dry_run_error r); (split; [by exists origin|done]).
Qed.

Lemma asset_test_requests api h symbol location acct amt fee t o :
  asset_test api h symbol location acct amt fee t o →
  Forall (test_request api) (requests t) ∧
  providers_returned t = [] ∧ apis_created t = [].
Proof.
  intros [args e Hb|args tx origin e error Hb Hread|args1 tx1 t1 args2 e Hb1 Ha1 Hb2
         |args1 tx1 t1 args2 tx2 origin e error Hb1 Ha1 Hb2 Hread
         |args1 tx1 t1 args2 tx2 t2 Hb1 Ha1 Hb2 Ha2];
    rewrite ?requests_app, ?providers_returned_app, ?apis_created_app;
    try (destruct (attempt_requests _ _ _ _ _ Ha1) as ([origin1 ->] & -> & ->));
    try (destruct (attempt_requests _ _ _ _ _ Ha2) as ([origin2 ->] & -> & ->));
    by repeat constructor.
Qed.

Lemma test_requests_filter api qs :
  Forall (test_request api) qs →
  List.filter is_connect qs = [] ∧ List.filter is_disconnect qs = [] ∧
  ∀ a, ReqDisconnect a ∉ qs.
Proof.
  induction 1 as [|q qs Hq _ (IH1 & IH2 & IH3)]; [split_and!; [done..|set_solver]|].
  destruct q; simpl in *; try done.
  all: split_and!; [done..|].
  all: intros a' Hin; apply elem_of_cons in Hin as [Heq|Hin]; [done|by eapply IH3].
Qed.

Lemma test_requests_on_connection api t qs :
  apis_created t = [api] → Forall (test_request api) qs → Forall (on_connection t) qs.
Proof.
  intros Hapi Hqs. eapply Forall_impl; [exact Hqs|]. intros []; simpl; try done; by intros ->.
Qed.

Lemma connected_single_connection endpoint p api qs tail t o :
  requests t = ([ ReqWsProvider endpoint; ReqCreate p ] ++ qs) ++ tail →
  Forall (test_request api) qs →
  providers_returned t = [p] →
  apis_created t = [api] →
  (tail = [] ∧ o ≠ Ret tt) ∨
  (tail = [ ReqDisconnect api ] ∧ (o = Ret tt → last t = Some (EvFulfilled RepUnit))) →
  single_connection t o.
Proof.
  intros Hreq Hqs Hp Ha Htail.
  destruct (test_requests_filter _ _ Hqs) as (Hc & Hd & Hnd).
  unfold single_connection, connections_opened, disconnects. rewrite Hreq.
  rewrite !List.filter_app, Hc, Hd.
  assert (Forall (on_connection t) ([ReqWsProvider endpoint; ReqCreate p] ++ qs)) as Hon.
  { apply Forall_app. split; [by repeat constructor|by eapply test_requests_on_connection]. }
  assert (∀ a, ReqDisconnect a ∉ [ReqWsProvider endpoint; ReqCreate p] ++ qs) as Hpre.
  { intros a [Hin|Hin]%elem_of_app; [|by destruct (Hnd a)].
    apply elem_of_cons in Hin as [|Hin%list_elem_of_singleton]; done. }
  destruct Htail as [[-> Ho]|[-> Hlast]]; rewrite ?app_nil_r.
  - split_and!; [done|done|simpl; lia| |done]. intros a Hin. by destruct (Hpre a).
  - split_and!; [done| |simpl; lia| |by intros ?; split; [|apply Hlast]].
    + apply Forall_app. split; [done|]. by repeat constructor.
    + intros a Hin. rewrite last_snoc.
      apply elem_of_app in Hin as [Hin|Hin%list_elem_of_singleton]; [|by rewrite Hin].
      by destruct (Hpre a).
Qed.

Lemma driver_run_single_connection h endpoint t o :
  driver_run h endpoint t o → single_connection t o.
Proof.
  intros [e|p e|p api t1 e Ht1|p api t1 t2 e Ht1 Ht2|p api t1 t2 e Ht1 Ht2|p api t1 t2 Ht1 Ht2];
    try (apply asset_test_requests in Ht1 as (Hq1 & Hp1 & Ha1));
    try (apply asset_test_requests in Ht2 as (Hq2 & Hp2 & Ha2));
    try (destruct (fatal_cases e) as [(message & _ & -> & ->)|(error & _ & -> & ->)]).
  1-2: unfold single_connection; (split_and!; [done|by repeat constructor|cbn; lia| |done]);
    intros a Hin; cbn in Hin; by apply list_elem_of_singleton in Hin.
  1-2: unfold single_connection; (split_and!; [done|by repeat constructor|cbn; lia| |done]);
    intros a Hin; cbn in Hin;
    apply elem_of_cons in Hin as [|Hin%list_elem_of_singleton]; done.
  1-2: apply (connected_single_connection endpoint p api (requests t1) []);
      rewrite ?requests_app, ?providers_returned_app, ?apis_created_app, ?Hp1, ?Ha1;
      [by rewrite !app_nil_r|done|done|done|by left].
  1-2: apply (connected_single_connection endpoint p api (requests t1 ++ requests t2) []);
      rewrite ?requests_app, ?providers_returned_app, ?apis_created_app,
        ?Hp1, ?Ha1, ?Hp2, ?Ha2;
      [by rewrite !app_nil_r|by apply Forall_app|done|done|by left].
  1-2: apply (connected_single_connection endpoint p api (requests t1 ++ requests t2)
             [ReqDisconnect api]);
      rewrite ?requests_app, ?providers_returned_app, ?apis_created_app,
        ?Hp1, ?Ha1, ?Hp2, ?Ha2;
      [by rewrite <-!app_assoc|by apply Forall_app|done|done|by right].
  apply (connected_single_connection endpoint p api (requests t1 ++ requests t2)
           [ReqDisconnect api]);
    rewrite ?requests_app, ?providers_returned_app, ?apis_created_app,
      ?Hp1, ?Ha1, ?Hp2, ?Ha2;
    [by rewrite <-!app_assoc|by apply Forall_app|done|done|].
  right. split; [done|]. intros _. by rewrite !last_app.
Qed.

End Connection.

(** C7, as the code has it. Every run of the driver opens exactly one
    connection, and every other call goes through the provider of that
    connection or through the API created on it. The run disconnects at most
    once, as its last call; it has disconnected whenever it completes. *)
Theorem driver_uses_single_connection `{JSBuiltins} {W : Type} `{Remote W}
    (env : gmap string string) (w : W) :
  let r := run_driver env w in
  single_connection (trace r) (out r).
Proof. intros r. eapply driver_run_single_connection, run_driver_shape. Qed.

Lemma driver_uses_single_connection_witness :
  let r := @run_driver Scripted.builtins _ Scripted.remote ∅ [] in
  out r = Ret tt ∧ disconnects (trace r) = 1%nat ∧ last (trace r) = Some (EvFulfilled RepUnit).
Proof.
  split; [reflexivity|].
  apply (@driver_uses_single_connection Scripted.builtins _ Scripted.remote ∅ []).
  reflexivity.
Defined.

(** C7 as stated fails: when the construction of the first extrinsic throws,
    the connection has been opened and the API created, the process exits with
    code 1, and [disconnect] has not been called. *)
Lemma driver_exits_without_disconnect_counterexample :
  let r := @run_driver Scripted.builtins _ Scripted.remote ∅
             [ Scripted.Accept; Scripted.Accept; Scripted.Refuse "boom" ] in
  connections_opened (trace r) = 1%nat ∧
  apis_created (trace r) = [ 2%nat ] ∧
  disconnects (trace r) = 0%nat ∧
  out r = Exit 1 ∧
  last (trace r) = Some (EvExit 1).
Proof. by vm_compute. Qed.

(** ** The endpoint *)

(** C8, as the code has it. The endpoint is the value of
    [POLKADOT_ASSET_HUB_WSS] when that variable is set to a non-empty string,
    and the default address when it is unset or empty; it is the address the
    connection is opened to; and the driver is the same computation for two
    environments that agree on this one variable. *)
Theorem endpoint_from_environment `{JSBuiltins} {W : Type} `{Remote W} :
  (∀ (env : gmap string string) v,
     env !! "POLKADOT_ASSET_HUB_WSS" = Some v → v ≠ "" →
     POLKADOT_ASSET_HUB_WSS env = v) ∧
  (∀ env : gmap string string,
     env !! "POLKADOT_ASSET_HUB_WSS" = None ∨ env !! "POLKADOT_ASSET_HUB_WSS" = Some "" →
     POLKADOT_ASSET_HUB_WSS env = "wss://polkadot-asset-hub-rpc.polkadot.io") ∧
  (∀ env (w : W),
     head (requests (trace (run_driver env w))) =
       Some (ReqWsProvider (POLKADOT_ASSET_HUB_WSS env))) ∧
  (∀ env1 env2 : gmap string string,
     env1 !! "POLKADOT_ASSET_HUB_WSS" = env2 !! "POLKADOT_ASSET_HUB_WSS" →
     demonstrateAssetOrderingBug (W := W) env1 = demonstrateAssetOrderingBug env2 ∧
     ∀ import_meta_url argv,
       main (W := W) import_meta_url argv env1 = main import_meta_url argv env2).
Proof.
  split_and!.
  - intros env v Hv Hne. unfold POLKADOT_ASSET_HUB_WSS. rewrite Hv. by case_decide.
  - intros env [Hv|Hv]; unfold POLKADOT_ASSET_HUB_WSS; by rewrite Hv.
  - intros env w. destruct (run_driver_shape env w); by rewrite requests_app.
  - intros env1 env2 Heq.
    assert (demonstrateAssetOrderingBug (W := W) env1 = demonstrateAssetOrderingBug env2) as Hd.
    { unfold demonstrateAssetOrderingBug.
      assert (POLKADOT_ASSET_HUB_WSS env1 = POLKADOT_ASSET_HUB_WSS env2) as ->; [|done].
      unfold POLKADOT_ASSET_HUB_WSS. by rewrite Heq. }
    split; [done|]. intros url argv. unfold main. by rewrite Hd.
Qed.

Lemma endpoint_from_environment_witness :
  let env : gmap string string := {[ "POLKADOT_ASSET_HUB_WSS" := "ws://127.0.0.1:9944" ]} in
  POLKADOT_ASSET_HUB_WSS env = "ws://127.0.0.1:9944".
Proof.
  apply (proj1 (@endpoint_from_environment Scripted.builtins _ Scripted.remote));
    [reflexivity|discriminate].
Defined.

(** C8 as stated fails: with the variable set to the empty string, its value
    is not the endpoint; the driver connects to the default address. *)
Lemma endpoint_empty_variable_counterexample :
  let env : gmap string string := {[ "POLKADOT_ASSET_HUB_WSS" := "" ]} in
  env !! "POLKADOT_ASSET_HUB_WSS" = Some "" ∧
  POLKADOT_ASSET_HUB_WSS env = "wss://polkadot-asset-hub-rpc.polkadot.io" ∧
  head (requests (trace (@run_driver Scripted.builtins _ Scripted.remote env []))) =
    Some (ReqWsProvider "wss://polkadot-asset-hub-rpc.polkadot.io").
Proof. by vm_compute. Qed.

(** ** The module constants *)

Section Constants.
Context `{JSBuiltins} {W : Type} `{Remote W}.

Lemma grows_ret {A} (a : A) : grows (W := W) (mret a).
Proof. intros s. reflexivity. Qed.

Lemma grows_bind {A B} (m : M W A) (k : A → M W B) :
  grows m → (∀ a, grows (k a)) → grows (m ≫= k).
Proof.
  intros Hm Hk s. specialize (Hm s). unfold mbind, M_bind, bind.
  destruct (m s) as [[a|e|c] s1 t1]; simpl in *; [|done..].
  specialize (Hk a s1). destruct (k a s1) as [o s2 t2]. simpl in *. by etrans.
Qed.

Lemma grows_try_catch {A} (m : M W A) (handler : thrown → M W A) :
  grows m → (∀ e, grows (handler e)) → grows (try_catch m handler).
Proof.
  intros Hm Hh s. specialize (Hm s). unfold try_catch.
  destruct (m s) as [[a|e|c] s1 t1]; simpl in *; [done| |done].
  specialize (Hh e s1). destruct (handler e s1) as [o s2 t2]. simpl in *. by etrans.
Qed.

Lemma grows_lift {A} (r : thrown + A) : grows (W := W) (lift r).
Proof. destruct r; intros s; reflexivity. Qed.

Lemma grows_console_log args : grows (W := W) (console_log args).
Proof. intros s. reflexivity. Qed.

Lemma grows_get_heap : grows (W := W) get_heap.
Proof. intros s. reflexivity. Qed.

Lemma grows_get_prop v k : grows (W := W) (get_prop v k).
Proof. intros s. unfold get_prop. destruct (read_prop _ _ _); reflexivity. Qed.

Lemma grows_new t : grows (W := W) (new t).
Proof.
  intros s. unfold new. destruct (alloc_lit t (st_heap s)) as [v h'] eqn:E. simpl.
  by eapply alloc_lit_prefix.
Qed.

Lemma grows_await {A} q (f : W → (thrown + A) * W) rep : grows (await q f rep).
Proof. intros s. unfold await. destruct (f (st_world s)) as [[e|a] w']; reflexivity. Qed.

Lemma grows_createTransferExtrinsic api tokenLocation amount destFee assetOrder beneficiary :
  grows (createTransferExtrinsic api tokenLocation amount destFee assetOrder beneficiary).
Proof.
  intros s.
  by destruct (createTransferExtrinsic_spec api tokenLocation amount destFee assetOrder
                 beneficiary s) as (args & rt & Hgrow & _).
Qed.

End Constants.

Create HintDb grows.

#[global] Hint Resolve grows_ret grows_lift grows_console_log grows_get_heap grows_get_prop
  grows_new grows_await grows_createTransferExtrinsic : grows.

Ltac solve_grows :=
  repeat first
    [ solve [eauto with grows]
    | apply grows_bind; [|intros ?]
    | apply grows_try_catch; [|intros ?]
    | match goal with |- grows (if ?b then _ else _) => destruct b end ].

Section ConstantsUnchanged.
Context `{JSBuiltins} {W : Type} `{Remote W}.

Lemma grows_testAssetOrdering api asset testAccount amount fee :
  grows (testAssetOrdering api asset testAccount amount fee).
Proof. unfold testAssetOrdering, dryRunAndReport, reportException. solve_grows. Qed.

Lemma grows_run_operation op : grows (run_operation op).
Proof.
  destruct op; simpl; [solve_grows|apply grows_testAssetOrdering].
Qed.

Lemma run_operations_grows ops s : st_heap s `prefix_of` st_heap (run_operations ops s).
Proof.
  revert s. induction ops as [|op ops IH]; intros s; simpl; [done|].
  etrans; [apply grows_run_operation|apply IH].
Qed.

Lemma represents_WUD_ASSET : represents H0 (WUD_ASSET M0) WUD_ASSET_lit.
Proof. repeat (econstructor; simpl). Qed.

Lemma represents_KSM_ASSET : represents H0 (KSM_ASSET M0) KSM_ASSET_lit.
Proof. repeat (econstructor; simpl). Qed.

End ConstantsUnchanged.

(** C9. No sequence of calls of [createTransferExtrinsic] and
    [testAssetOrdering], with any arguments and whatever the library answers,
    changes an object of the loaded module: afterwards every object of the
    module heap is as it was, and [WUD_ASSET] and [KSM_ASSET] still have every
    field of their literals, nested ones included. *)
Theorem module_constants_unchanged `{JSBuiltins} {W : Type} `{Remote W}
    (ops : list operation) (w : W) :
  let s' := run_operations ops (State H0 w) in
  (∀ (l : nat) o, H0 !! l = Some o → st_heap s' !! l = Some o) ∧
  represents (st_heap s') (WUD_ASSET M0) WUD_ASSET_lit ∧
  represents (st_heap s') (KSM_ASSET M0) KSM_ASSET_lit.
Proof.
  intros s'. pose proof (run_operations_grows ops (State H0 w)) as Hgrow. fold s' in Hgrow.
  simpl in Hgrow. split_and!.
  - intros l o Hl. by eapply prefix_lookup_Some.
  - eapply represents_mono; [exact Hgrow|apply represents_WUD_ASSET].
  - eapply represents_mono; [exact Hgrow|apply represents_KSM_ASSET].
Qed.

(** * Further properties *)

(** ** Newly allocated objects *)

Lemma alloc_seq_extends {A B} (f : A → heap → B * heap) xs :
  (∀ x h, ∃ k, (f x h).2 = h ++ k) →
  ∀ h, ∃ k, (alloc_seq f xs h).2 = h ++ k.
Proof.
  intros Hf h.
  destruct (alloc_seq_spec f (λ _ _ _, True) xs) with (h := h) as (k & Hk & _);
    [done| |by exists k].
  apply Forall_forall. intros x _ h1. destruct (Hf x h1) as [k1 Hk1]. by exists k1.
Qed.

(** An object or array literal evaluates to a reference to the last object of
    the new heap, which the old heap did not hold. *)
Lemma alloc_lit_fresh t h v h' :
  alloc_lit t h = (v, h') →
  (∃ x, t = LVal x) ∨ (∃ l, v = VRef l ∧ (length h ≤ l)%nat ∧ length h' = S l).
Proof.
  destruct t as [x|props|elems]; simpl; intros E; [left; by exists x|right..].
  - destruct (alloc_seq_extends
                (λ kt h, let '(v, h1) := alloc_lit kt.2 h in ((kt.1, v), h1)) props)
      with (h := h) as [k Hk].
    { intros kt h1. destruct (alloc_lit_spec kt.2 h1) as (k1 & Hk1 & _). exists k1.
      by destruct (alloc_lit kt.2 h1). }
    destruct (alloc_seq _ props h) as [kvs h1]. simpl in Hk. subst h1.
    injection E as <- <-. eexists. split; [done|]. rewrite !length_app. simpl. lia.
  - destruct (alloc_seq_extends alloc_lit elems) with (h := h) as [k Hk].
    { intros t h1. destruct (alloc_lit_spec t h1) as (k1 & Hk1 & _). by exists k1. }
    destruct (alloc_seq alloc_lit elems h) as [vs h1]. simpl in Hk. subst h1.
    injection E as <- <-. eexists. split; [done|]. rewrite !length_app. simpl. lia.
Qed.

Section Parameters.
Context `{JSBuiltins} {W : Type} `{Remote W}.

Lemma wp_new_fresh t Q (s : state W) :
  (∀ x, t ≠ LVal x) →
  (∀ l h', st_heap s `prefix_of` h' → (length (st_heap s) ≤ l)%nat → length h' = S l →
           represents h' (VRef l) t →
           Q (Ret (VRef l)) (State h' (st_world s)) []) →
  wp (new t) Q s.
Proof.
  intros Ht HQ. apply wp_new. intros v h' Halloc Hpre Hrep.
  destruct (alloc_lit_fresh _ _ _ _ Halloc) as [[x ->]|(l & -> & Hl & Hlen)]; [by destruct (Ht x)|].
  by apply HQ.
Qed.

Lemma createTransferExtrinsic_fresh_spec api tokenLocation amount destFee assetOrder beneficiary s :
  wp (createTransferExtrinsic api tokenLocation amount destFee assetOrder beneficiary)
     (λ o s' t,
        ∃ d a f x reserveType,
          (length (st_heap s) ≤ d < a)%nat ∧ (a < f < x)%nat ∧ (x < length (st_heap s'))%nat ∧
          match transferAssetsUsingTypeAndThen api (st_heap s')
                  [ VRef d; VRef a; VStr reserveType; VRef f; VStr "LocalReserve"; VRef x;
                    VStr "Unlimited" ] (st_world s) with
          | (inr tx, w') =>
              o = Ret tx ∧ s' = State (st_heap s') w' ∧
              t = [ EvCall (ReqTransfer api [ VRef d; VRef a; VStr reserveType; VRef f;
                                              VStr "LocalReserve"; VRef x; VStr "Unlimited" ]);
                    EvReturned (RepExtrinsic tx) ]
          | (inl e, w') =>
              o = Throw e ∧ s' = State (st_heap s') w' ∧
              t = [ EvCall (ReqTransfer api [ VRef d; VRef a; VStr reserveType; VRef f;
                                              VStr "LocalReserve"; VRef x; VStr "Unlimited" ]);
                    EvThrew e ]
          end) s.
Proof.
  unfold createTransferExtrinsic, createDummyXCM.
  wp_step. apply wp_new_fresh; [done|]. intros d h1 Hpre1 Hd Hh1 _.
  do 2 wp_step. cbn [st_heap st_world].
  destruct (read_prop h1 (KSM_ASSET M0) "location") as [e|ksm] eqn:Eksm.
  { simpl in Eksm. by destruct (h1 !! 11%nat) as [[]|]. }
  do 3 wp_step. cbn [st_heap st_world].
  set (reserveType := if loose_eq h1 tokenLocation ksm
                      then "DestinationReserve" else "LocalReserve").
  assert (∀ Q : outcome value → state W → list event → Prop,
    (∀ a h2, (length h1 ≤ a)%nat → length h2 = S a →
       Q (Ret (VRef a)) (State h2 (st_world s)) []) →
    wp (if decide (assetOrder = token_first)
        then new (LObj [ ("v4", LArr [
               LObj [ ("id", LVal tokenLocation); ("fun", LObj [ ("Fungible", lstr amount) ]) ];
               LObj [ ("id", LVal (NATIVE_TOKEN_LOCATION M0));
                      ("fun", LObj [ ("Fungible", lstr destFee) ]) ] ]) ])
        else new (LObj [ ("v4", LArr [
               LObj [ ("id", LVal (NATIVE_TOKEN_LOCATION M0));
                      ("fun", LObj [ ("Fungible", lstr destFee) ]) ];
               LObj [ ("id", LVal tokenLocation);
                      ("fun", LObj [ ("Fungible", lstr amount) ]) ] ]) ]))
       Q (State h1 (st_world s))) as Hassets.
  { intros Q HQ. destruct assetOrder; case_decide; try done;
      (apply wp_new_fresh; [done|]); intros a h2 _ Ha Hh2 _; by apply HQ. }
  apply Hassets. clear Hassets. intros a h2 Ha Hh2.
  wp_step. apply wp_new_fresh; [done|]. intros f h3 _ Hf Hh3 _. cbn [st_heap st_world] in *.
  wp_step. apply wp_new_fresh; [done|]. intros x h4 _ Hx Hh4 _. cbn [st_heap st_world] in *.
  do 2 wp_step. cbn [st_heap st_world].
  apply wp_call; intros r w' Ecall; rewrite !app_nil_l; cbn [st_heap st_world] in *;
    exists d, a, f, x, reserveType; cbn [st_heap st_world]; rewrite Ecall;
    (split_and!; [lia..|done|done|done]).
Qed.

Lemma transfer_params_reserve h args assets reserveType beneficiary :
  Forall2 (represents h) args (transfer_params assets reserveType beneficiary) →
  args !! 2%nat = Some (VStr reserveType).
Proof.
  intros Hargs.
  destruct (Forall2_lookup_r _ _ _ 2%nat (lstr reserveType) Hargs) as (v & Hv & Hrep); [done|].
  by inversion Hrep; subst.
Qed.

Lemma represents_KSM_location h :
  H0 `prefix_of` h → represents h KSM_ASSET_location KSM_location_lit.
Proof.
  intros Hpre. eapply represents_mono; [exact Hpre|]. repeat (econstructor; simpl).
Qed.

End Parameters.

(** X1. [createDummyXCM] (lines 70-93) has no effect that can be observed: it
    prints nothing, calls nothing, changes no object that exists and never
    throws. It returns a reference to an object allocated by the call, which
    is the message depositing all assets (counted 2) to the beneficiary, the
    string it was given being the [AccountId32] id, without any check of that
    string. *)
Theorem createDummyXCM_fresh_message `{JSBuiltins} {W : Type} `{Remote W}
    (beneficiary : string) (s : state W) :
  let r := createDummyXCM beneficiary s in
  ∃ xcm,
    out r = Ret xcm ∧ trace r = [] ∧ st_world (final r) = st_world s ∧
    st_heap s `prefix_of` st_heap (final r) ∧
    allocated_after (st_heap s) xcm = true ∧
    represents (st_heap (final r)) xcm
      (LObj [ ("v4", LArr [
        LObj [ ("DepositAsset", LObj [
          ("assets", LObj [ ("Wild", LObj [ ("AllCounted", lstr "2") ]) ]);
          ("beneficiary", LObj [
            ("parents", lnum 0);
            ("interior", LObj [ ("x1", LArr [
              LObj [ ("AccountId32", LObj [ ("network", LVal VNull);
                                            ("id", lstr beneficiary) ]) ] ]) ]) ]) ]) ] ]) ]).
Proof.
  intros r. subst r. unfold createDummyXCM, new.
  destruct (alloc_lit (createDummyXCM_lit beneficiary) (st_heap s)) as [v h'] eqn:E. simpl.
  exists v. split_and!; [done..|by eapply alloc_lit_prefix| |by eapply alloc_lit_represents].
  destruct (alloc_lit_fresh _ _ _ _ E) as [[x Hx]|(l & -> & Hl & _)]; [done|].
  by apply bool_decide_eq_true_2.
Qed.

(** X2. [createTransferExtrinsic] (lines 98-164) prints nothing and makes
    exactly one call, of the extrinsic constructor, with seven arguments, the
    objects among them being allocated by then. It returns the extrinsic the
    constructor returns and throws, unchanged, the error the constructor
    throws; the world is changed by that call only, and the heap only grows. *)
Theorem createTransferExtrinsic_single_call `{JSBuiltins} {W : Type} `{Remote W}
    (api : Api) (tokenLocation : value) (amount destFee : string)
    (assetOrder : AssetOrder) (beneficiary : string) (s : state W) :
  let r := createTransferExtrinsic api tokenLocation amount destFee assetOrder beneficiary s in
  ∃ args,
    length args = 7%nat ∧
    st_heap s `prefix_of` st_heap (final r) ∧
    match transferAssetsUsingTypeAndThen api (st_heap (final r)) args (st_world s) with
    | (inr tx, w') =>
        out r = Ret tx ∧ st_world (final r) = w' ∧
        trace r = [ EvCall (ReqTransfer api args); EvReturned (RepExtrinsic tx) ]
    | (inl e, w') =>
        out r = Throw e ∧ st_world (final r) = w' ∧
        trace r = [ EvCall (ReqTransfer api args); EvThrew e ]
    end.
Proof.
  intros r.
  destruct (createTransferExtrinsic_spec api tokenLocation amount destFee assetOrder
              beneficiary s) as (args & rt & Hgrow & _ & Hargs & Hcall).
  fold r in Hgrow, Hargs, Hcall. exists args. split_and!; [|done..].
  by apply Forall2_length in Hargs.
Qed.

(** X3. The four object arguments [createTransferExtrinsic] passes
    (destination, assets, fee asset and custom XCM) are allocated by the call
    itself: each is a reference to an object that did not exist before the
    call and exists after it, and the four are different objects. Two calls
    therefore never pass the same object in these positions. *)
Theorem createTransferExtrinsic_parameters_fresh `{JSBuiltins} {W : Type} `{Remote W}
    (api : Api) (tokenLocation : value) (amount destFee : string)
    (assetOrder : AssetOrder) (beneficiary : string) (s : state W) :
  let r := createTransferExtrinsic api tokenLocation amount destFee assetOrder beneficiary s in
  ∃ destination assets reserveType feeAsset customXcm,
    head (trace r) =
      Some (EvCall (ReqTransfer api [ destination; assets; VStr reserveType; feeAsset;
                                      VStr "LocalReserve"; customXcm; VStr "Unlimited" ])) ∧
    Forall (λ v, allocated_after (st_heap s) v = true ∧
                 allocated_after (st_heap (final r)) v = false)
           [ destination; assets; feeAsset; customXcm ] ∧
    NoDup [ destination; assets; feeAsset; customXcm ].
Proof.
  intros r.
  destruct (createTransferExtrinsic_fresh_spec api tokenLocation amount destFee assetOrder
              beneficiary s) as (d & a & f & x & rt & Hd & Hf & Hx & Hcall).
  fold r in Hx, Hcall. exists (VRef d), (VRef a), rt, (VRef f), (VRef x). split_and!.
  - destruct (transferAssetsUsingTypeAndThen _ _ _ _) as [[e|tx] w'];
      destruct Hcall as (_ & _ & ->); done.
  - repeat constructor; simpl;
      first [ apply bool_decide_eq_true_2; lia | apply bool_decide_eq_false_2; lia ].
  - repeat constructor; rewrite ?not_elem_of_cons; split_and?;
      try (intros [= ?]; lia); apply not_elem_of_nil.
Qed.

(** X4. The comparison of line 114 is one of identity, not of content: a
    second object written with the very fields of [KSM_ASSET.location] is not
    that object, and a transfer of the token at it is given the reserve type
    ["LocalReserve"]. *)
Theorem createTransferExtrinsic_copy_of_KSM_location `{JSBuiltins} {W : Type} `{Remote W}
    (api : Api) (amount destFee : string) (assetOrder : AssetOrder) (beneficiary : string)
    (s : state W) :
  H0 `prefix_of` st_heap s →
  let c := new KSM_location_lit s in
  ∃ copy,
    out c = Ret copy ∧
    represents (st_heap (final c)) copy KSM_location_lit ∧
    represents (st_heap (final c)) KSM_ASSET_location KSM_location_lit ∧
    let r := createTransferExtrinsic api copy amount destFee assetOrder beneficiary (final c) in
    ∃ args,
      head (trace r) = Some (EvCall (ReqTransfer api args)) ∧
      args !! 2%nat = Some (VStr "LocalReserve").
Proof.
  intros Hs c. subst c. unfold new.
  destruct (alloc_lit KSM_location_lit (st_heap s)) as [v h'] eqn:E. simpl.
  pose proof (alloc_lit_prefix _ _ _ _ E) as Hpre.
  assert (H0 `prefix_of` h') as Hh' by (by etrans).
  exists v. split_and!; [done|by eapply alloc_lit_represents|by apply represents_KSM_location|].
  destruct (alloc_lit_fresh _ _ _ _ E) as [[x Hx]|(l & -> & Hl & _)]; [done|].
  destruct (createTransferExtrinsic_call api (VRef l) amount destFee assetOrder beneficiary
              (State h' (st_world s))) as (args & rt & Hc & _ & Hrt & Hargs).
  exists args. split; [done|].
  rewrite (transfer_params_reserve _ _ _ _ _ Hargs), (Hrt Hh'), reserveType_for_cases.
  apply prefix_length in Hs. change (length H0) with 13%nat in Hs.
  rewrite bool_decide_eq_false_2; [done|]. unfold KSM_ASSET_location.
  intros [[= ->]|[=]]. lia.
Qed.

Lemma createTransferExtrinsic_copy_of_KSM_location_witness :
  let s := State H0 ([] : list Scripted.canned) in
  let c := new KSM_location_lit s in
  ∃ copy,
    out c = Ret copy ∧
    represents (st_heap (final c)) copy KSM_location_lit ∧
    represents (st_heap (final c)) KSM_ASSET_location KSM_location_lit ∧
    let r := @createTransferExtrinsic Scripted.builtins _ Scripted.remote
               2%nat copy "50000000000" "18718740000" dot_first "0x46" (final c) in
    ∃ args,
      head (trace r) = Some (EvCall (ReqTransfer 2%nat args)) ∧
      args !! 2%nat = Some (VStr "LocalReserve").
Proof.
  apply (@createTransferExtrinsic_copy_of_KSM_location Scripted.builtins _ Scripted.remote
           2%nat "50000000000" "18718740000" dot_first "0x46" (State H0 [])).
  reflexivity.
Defined.

(** ** Calls of [testAssetOrdering] *)

(** Symbolic execution through the statements that cannot go two ways for a
    reason that matters to the property at hand. *)
Ltac wp_walk :=
  repeat first
    [ lazymatch goal with
      | |- wp (try_catch _ _) _ _ => fail
      | |- _ => wp_step
      end
    | match goal with
      | |- match ?x with inl _ => _ | inr _ => _ end => destruct x
      | |- wp (if ?b then _ else _) _ _ => destruct b
      end; cbn beta iota ].

Section Tests.
Context `{JSBuiltins} {W : Type} `{Remote W}.

Lemma constructions_app t1 t2 :
  constructions (t1 ++ t2) = (constructions t1 + constructions t2)%nat.
Proof. unfold constructions. by rewrite List.filter_app, length_app. Qed.

Lemma attempt_quiet api symbol label tx t :
  attempt api symbol label tx t →
  List.filter is_stderr t = [] ∧ List.filter is_exit t = [] ∧ constructions t = 0%nat.
Proof.
  intros [origin e message Hread|origin r]; [done|].
  unfold report_events. by destruct (dry_run_error r).
Qed.

(** A call of [testAssetOrdering] writes nothing to the error stream and does
    not end the process. *)
Lemma asset_test_quiet api h symbol location acct amt fee t o :
  asset_test api h symbol location acct amt fee t o →
  List.filter is_stderr t = [] ∧ List.filter is_exit t = [].
Proof.
  intros [args e Hb|args tx origin e error Hb Hread|args1 tx1 t1 args2 e Hb1 Ha1 Hb2
         |args1 tx1 t1 args2 tx2 origin e error Hb1 Ha1 Hb2 Hread
         |args1 tx1 t1 args2 tx2 t2 Hb1 Ha1 Hb2 Ha2];
    try (apply attempt_quiet in Ha1 as (He1 & Hx1 & _));
    try (apply attempt_quiet in Ha2 as (He2 & Hx2 & _));
    rewrite ?List.filter_app, ?He1, ?Hx1, ?He2, ?Hx2; done.
Qed.

(** What it throws is what the top-level [catch] clause receives. *)
Lemma asset_test_caught api h symbol location acct amt fee t e pre :
  asset_test api h symbol location acct amt fee t (Throw e) →
  caught_after (pre ++ t) e.
Proof.
  assert (∀ t' t q, t' = t ++ [ EvCall q; EvThrew e ] → caught_after t' e) as Hthrown
    by (intros ??? ->; constructor).
  assert (∀ t' t q e', t' = t ++ [ EvAsyncCall (ReqDryRunCall api q.1.1 q.1.2 q.2);
                                   EvRejected e' ] →
                       read_message e' = inl e → caught_after t' e) as Hclause
    by (intros ???? -> ?; by apply caught_from_catch_clause).
  intros Ht. inversion Ht as [args e' Hb|args tx origin e' error Hb Hread
                             |args1 tx1 t1 args2 e' Hb1 Ha1 Hb2
                             |args1 tx1 t1 args2 tx2 origin e' error Hb1 Ha1 Hb2 Hread|];
    subst; unfold uncaught.
  - eapply (Hthrown _ (pre ++ [_])). by rewrite <-app_assoc.
  - eapply (Hclause _ (pre ++ [_; _; _]) (origin, tx, 4)); [|done]. by rewrite <-app_assoc.
  - eapply (Hthrown _ (pre ++ [_; _; _] ++ t1 ++ [_])). by rewrite <-!app_assoc.
  - eapply (Hclause _ (pre ++ [_; _; _] ++ t1 ++ [_; _; _]) (origin, tx2, 4)); [|done].
    by rewrite <-!app_assoc.
Qed.

(** An asset object whose [symbol] is a string reads the same in every later
    heap; a field it does not have reads [undefined]. *)
Lemma object_asset_reads h (l : nat) kvs symbol :
  h !! l = Some (Obj kvs) →
  assoc "symbol" kvs = Some (VStr symbol) →
  asset_reads h (VRef l) symbol (default VUndefined (assoc "location" kvs)).
Proof.
  intros Hl Hsym h' Hpre. unfold read_prop. rewrite (prefix_lookup_Some _ _ _ _ Hl Hpre).
  split; [done|]. exists (VStr symbol). by rewrite Hsym.
Qed.

Lemma bare_asset_reads h (l : nat) kvs :
  h !! l = Some (Obj kvs) →
  assoc "symbol" kvs = None →
  assoc "location" kvs = None →
  asset_reads h (VRef l) "undefined" VUndefined.
Proof.
  intros Hl Hsym Hloc h' Hpre. unfold read_prop. rewrite (prefix_lookup_Some _ _ _ _ Hl Hpre).
  rewrite Hsym, Hloc. split; [done|]. by exists VUndefined.
Qed.

Lemma read_prop_defined h asset k :
  asset ≠ VUndefined → asset ≠ VNull → ∃ v, read_prop h asset k = inr v.
Proof.
  intros Hu Hn. destruct asset as [| | | | |l]; simpl; try done; eauto.
  destruct (h !! l) as [[]|]; eauto.
Qed.

(** The [try] body alone: what it does for each answer of the dry run. *)
Lemma dryRunAndReport_spec api asset testAccount tx label s :
  asset ≠ VUndefined → asset ≠ VNull →
  wp (dryRunAndReport api asset testAccount tx label)
     (λ o _ t,
        (∃ origin r rest,
           o = Ret tt ∧
           t = EvAsyncCall (ReqDryRunCall api origin tx 4) :: EvFulfilled (RepDryRun r) :: rest ∧
           requests rest = []) ∨
        (∃ origin e,
           o = Throw e ∧
           t = [ EvAsyncCall (ReqDryRunCall api origin tx 4); EvRejected e ])) s.
Proof.
  intros Hu Hn. unfold dryRunAndReport.
  wp_step. apply wp_new; intros origin h1 _ _ _.
  destruct (read_prop_defined h1 asset "symbol" Hu Hn) as [symv Hsym].
  do 3 wp_step. cbn [st_heap st_world].
  apply wp_await.
  - intros r w' _. cbn [st_heap st_world].
    destruct r as [[[ok|e]]|e];
      repeat (wp_step; cbn [st_heap st_world isOk asOk asErr executionResult negb];
              rewrite ?Hsym);
      left; eexists origin, _, _; by split_and!.
  - intros e w' _. right. by exists origin, e.
Qed.

Lemma signed_dry_run_mono h h' testAccount q :
  h `prefix_of` h' → signed_dry_run h testAccount q → signed_dry_run h' testAccount q.
Proof.
  intros Hpre. destruct q; simpl; try done. intros [? ?]. split; [|done].
  by eapply represents_mono.
Qed.

Lemma signs_bind {A B} testAccount (m : M W A) (k : A → M W B) :
  signs testAccount m → (∀ a, signs testAccount (k a)) → signs testAccount (m ≫= k).
Proof.
  intros Hm Hk s. specialize (Hm s). unfold wp, mbind, M_bind, bind in *.
  destruct (m s) as [[a|e|c] s1 t1]; simpl in *; [|done..].
  specialize (Hk a s1). unfold wp in Hk. destruct (k a s1) as [o s2 t2]. simpl in *.
  destruct Hm as [Hp1 Hq1], Hk as [Hp2 Hq2]. split; [by etrans|].
  rewrite requests_app. apply Forall_app. split; [|done].
  eapply Forall_impl; [exact Hq1|]. intros q. by apply signed_dry_run_mono.
Qed.

Lemma signs_try_catch {A} testAccount (m : M W A) (handler : thrown → M W A) :
  signs testAccount m → (∀ e, signs testAccount (handler e)) →
  signs testAccount (try_catch m handler).
Proof.
  intros Hm Hk s. specialize (Hm s). unfold wp, try_catch in *.
  destruct (m s) as [[a|e|c] s1 t1]; simpl in *; [done| |done].
  specialize (Hk e s1). unfold wp in Hk. destruct (handler e s1) as [o s2 t2]. simpl in *.
  destruct Hm as [Hp1 Hq1], Hk as [Hp2 Hq2]. split; [by etrans|].
  rewrite requests_app. apply Forall_app. split; [|done].
  eapply Forall_impl; [exact Hq1|]. intros q. by apply signed_dry_run_mono.
Qed.

Lemma signs_get_prop testAccount v k : signs (W := W) testAccount (get_prop v k).
Proof. intros s. wp_walk; by split. Qed.

Lemma signs_get_heap testAccount : signs (W := W) testAccount get_heap.
Proof. intros s. wp_walk; by split. Qed.

Lemma signs_console_log testAccount args : signs (W := W) testAccount (console_log args).
Proof. intros s. wp_walk. by split. Qed.

Lemma signs_createTransferExtrinsic testAccount api tokenLocation amount destFee assetOrder
    beneficiary :
  signs testAccount
    (createTransferExtrinsic api tokenLocation amount destFee assetOrder beneficiary).
Proof.
  intros s. eapply wp_conseq; [apply createTransferExtrinsic_spec|].
  intros o s' t (args & rt & Hgrow & _ & _ & Hcall). split; [done|].
  destruct (transferAssetsUsingTypeAndThen _ _ _ _) as [[e|tx] w'];
    destruct Hcall as (_ & _ & ->); by repeat constructor.
Qed.

Lemma signs_dryRunAndReport api asset testAccount tx label :
  signs testAccount (dryRunAndReport api asset testAccount tx label).
Proof.
  intros s. unfold dryRunAndReport.
  wp_step. apply wp_new; intros origin h1 _ Hpre Hrep.
  do 3 wp_step. cbn [st_heap st_world].
  apply wp_await; intros r w' _; cbn [st_heap st_world]; wp_walk;
    (split; [done|]); by repeat constructor.
Qed.

Lemma signs_reportException testAccount asset label e :
  signs (W := W) testAccount (reportException asset label e).
Proof. intros s. unfold reportException. wp_walk; by split. Qed.

Lemma signs_testAssetOrdering api asset testAccount amount fee :
  signs testAccount (testAssetOrdering api asset testAccount amount fee).
Proof.
  unfold testAssetOrdering.
  repeat first
    [ apply signs_get_prop | apply signs_get_heap | apply signs_console_log
    | apply signs_createTransferExtrinsic | apply signs_dryRunAndReport
    | apply signs_reportException
    | apply signs_bind; [|intros ?]
    | apply signs_try_catch; [|intros ?] ].
Qed.

End Tests.

(** X5. Called with [undefined] or [null] for the asset, [testAssetOrdering]
    (line 177) throws at once, on reading [asset.symbol]: nothing is printed,
    nothing is allocated and no call is made. *)
Theorem testAssetOrdering_nullish_asset `{JSBuiltins} {W : Type} `{Remote W}
    (api : Api) (testAccount amount fee : string) (s : state W) :
  let r1 := testAssetOrdering api VUndefined testAccount amount fee s in
  let r2 := testAssetOrdering api VNull testAccount amount fee s in
  ((∃ e, out r1 = Throw e) ∧ trace r1 = [] ∧ final r1 = s) ∧
  ((∃ e, out r2 = Throw e) ∧ trace r2 = [] ∧ final r2 = s).
Proof. intros r1 r2. split; (split_and!; [by eexists|done..]). Qed.

(** X6. [testAssetOrdering] does not check the asset it is given. For an
    object that has neither a [symbol] nor a [location], it announces the test
    of ["undefined"] and constructs a transfer whose token id is [undefined],
    with the reserve type ["LocalReserve"]. *)
Theorem testAssetOrdering_asset_without_fields `{JSBuiltins} {W : Type} `{Remote W}
    (api : Api) (l : nat) (kvs : list (string * value)) (testAccount amount fee : string)
    (s : state W) :
  H0 `prefix_of` st_heap s →
  st_heap s !! l = Some (Obj kvs) →
  assoc "symbol" kvs = None →
  assoc "location" kvs = None →
  let r := testAssetOrdering api (VRef l) testAccount amount fee s in
  ∃ args rest,
    trace r = EvLog [ PStr "1. Testing undefined with token-first ordering..." ] ::
              EvCall (ReqTransfer api args) :: rest ∧
    Forall2 (represents (st_heap (final r))) args
      (transfer_params (assets_v4 [ token_entry VUndefined amount; dot_entry fee ])
                       "LocalReserve" testAccount).
Proof.
  intros Hs Hl Hsym Hloc r.
  destruct (testAssetOrdering_spec api (VRef l) "undefined" VUndefined testAccount amount fee s)
    as [_ Ht]; [done|by eapply bare_asset_reads|].
  fold r in Ht. destruct Ht; by eexists _, _.
Qed.

Lemma testAssetOrdering_asset_without_fields_witness :
  let s := State (H0 ++ [Obj []]) ([] : list Scripted.canned) in
  let r := @testAssetOrdering Scripted.builtins _ Scripted.remote
             2%nat (VRef 13) "0x46" "50000000000" "29876830" s in
  ∃ args rest,
    trace r = EvLog [ PStr "1. Testing undefined with token-first ordering..." ] ::
              EvCall (ReqTransfer 2%nat args) :: rest ∧
    Forall2 (represents (st_heap (final r))) args
      (transfer_params (assets_v4 [ token_entry VUndefined "50000000000"; dot_entry "29876830" ])
                       "LocalReserve" "0x46").
Proof.
  apply (@testAssetOrdering_asset_without_fields Scripted.builtins _ Scripted.remote
           2%nat 13%nat [] "0x46" "50000000000" "29876830"
           (State (H0 ++ [Obj []]) [])); [by apply prefix_app_r|reflexivity..].
Defined.

(** X7. What a call of [testAssetOrdering] with an asset object that has a
    string [symbol] does, whatever the asset, the amounts and the answers of
    the library. Its only calls are constructions and dry runs on the API it
    was given; it writes nothing to the error stream and does not end the
    process; and its events are those of one of five courses:
    - the first construction throws, right after the first announcement, and
      the call throws that error;
    - the first dry run is rejected with a reason of which [message] cannot
      be read ([undefined] or [null]), and the call throws the [TypeError] of
      that read, right after the rejection;
    - the first [try] statement completes (the result or the exception having
      been printed), and the second construction throws, right after the
      second announcement: the call throws that error;
    - both constructions return, the first [try] statement completes and the
      second dry run is rejected with [undefined] or [null]: the call throws
      the [TypeError];
    - both constructions return and both [try] statements complete: the call
      returns.
    In every course a construction that returns is directly followed by the
    dry run of the extrinsic it returned, and a dry run rejected with a
    reason that has a readable [message] does not make the call throw. *)
Theorem testAssetOrdering_contract `{JSBuiltins} {W : Type} `{Remote W}
    (api : Api) (l : nat) (kvs : list (string * value)) (symbol testAccount amount fee : string)
    (s : state W) :
  H0 `prefix_of` st_heap s →
  st_heap s !! l = Some (Obj kvs) →
  assoc "symbol" kvs = Some (VStr symbol) →
  let r := testAssetOrdering api (VRef l) testAccount amount fee s in
  let location := default VUndefined (assoc "location" kvs) in
  asset_test api (st_heap (final r)) symbol location testAccount amount fee
    (trace r) (out r) ∧
  Forall (test_request api) (requests (trace r)) ∧
  List.filter is_stderr (trace r) = [] ∧
  List.filter is_exit (trace r) = [].
Proof.
  intros Hs Hl Hsym r location.
  destruct (testAssetOrdering_spec api (VRef l) symbol location testAccount amount fee s)
    as [_ Ht]; [done|by eapply object_asset_reads|].
  fold r in Ht. split; [exact Ht|]. split.
  - by destruct (asset_test_requests _ _ _ _ _ _ _ _ _ Ht).
  - by apply asset_test_quiet in Ht.
Qed.

Lemma testAssetOrdering_contract_witness :
  let s := State H0 [ Scripted.Accept; Scripted.RefuseWith ThrownNull ] in
  let r := @testAssetOrdering Scripted.builtins _ Scripted.remote
             2%nat (WUD_ASSET M0) "0x46" "50000000000" "29876830" s in
  @asset_test Scripted.builtins 2%nat (st_heap (final r)) "WUD" WUD_ASSET_location
    "0x46" "50000000000" "29876830" (trace r) (out r) ∧
  Forall (test_request 2%nat) (requests (trace r)) ∧
  List.filter is_stderr (trace r) = [] ∧
  List.filter is_exit (trace r) = [].
Proof.
  intros s r.
  pose proof (@testAssetOrdering_contract Scripted.builtins _ Scripted.remote
                2%nat 5%nat (match H0 !! 5%nat with Some (Obj kvs) => kvs | _ => [] end)
                "WUD" "0x46" "50000000000" "29876830" s) as Hw.
  apply Hw; reflexivity.
Defined.

(** X8. The body of each [try] block (lines 188-202 and 219-233), for an asset
    other than [undefined] and [null]: it makes one call, the dry run of the
    extrinsic it is given, and it throws only when that call is rejected, and
    then at once. Whatever result the call returns ([Ok] with an [Ok] or an
    [Err] execution result, or [Err]) the body completes: [asOk] and [asErr]
    are applied to the variant they fit. *)
Theorem dryRunAndReport_throws_only_rejection `{JSBuiltins} {W : Type} `{Remote W}
    (api : Api) (asset : value) (testAccount : string) (tx : Extrinsic) (label : string)
    (s : state W) :
  asset ≠ VUndefined →
  asset ≠ VNull →
  let r := dryRunAndReport api asset testAccount tx label s in
  (∃ origin result rest,
     out r = Ret tt ∧
     trace r = EvAsyncCall (ReqDryRunCall api origin tx 4) ::
               EvFulfilled (RepDryRun result) :: rest ∧
     requests rest = []) ∨
  (∃ origin e,
     out r = Throw e ∧
     trace r = [ EvAsyncCall (ReqDryRunCall api origin tx 4); EvRejected e ]).
Proof.
  intros Hu Hn r. exact (dryRunAndReport_spec api asset testAccount tx label s Hu Hn).
Qed.

Lemma dryRunAndReport_throws_only_rejection_witness :
  let failed : DryRunResult := Ok {| executionResult := Err {| toHuman := JStr "Unroutable" |} |} in
  let r := @dryRunAndReport Scripted.builtins _ Scripted.remote
             2%nat (KSM_ASSET M0) "0x46" 7%nat "token-first"
             (State H0 [ Scripted.Answer failed ]) in
  (∃ origin result rest,
     out r = Ret tt ∧
     trace r = EvAsyncCall (ReqDryRunCall 2%nat origin 7%nat 4) ::
               EvFulfilled (RepDryRun result) :: rest ∧
     requests rest = []) ∨
  (∃ origin e,
     out r = Throw e ∧
     trace r = [ EvAsyncCall (ReqDryRunCall 2%nat origin 7%nat 4); EvRejected e ]).
Proof.
  apply (@dryRunAndReport_throws_only_rejection Scripted.builtins _ Scripted.remote);
    discriminate.
Defined.

(** X9. Every dry run [testAssetOrdering] submits, for any asset and in any
    state, is made for the origin [{system: {signed: testAccount}}] of the
    account it was given, with the result version 4. *)
Theorem testAssetOrdering_dry_runs_signed `{JSBuiltins} {W : Type} `{Remote W}
    (api : Api) (asset : value) (testAccount amount fee : string) (s : state W) :
  let r := testAssetOrdering api asset testAccount amount fee s in
  Forall (signed_dry_run (st_heap (final r)) testAccount) (requests (trace r)).
Proof. intros r. by destruct (signs_testAssetOrdering api asset testAccount amount fee s). Qed.

(** ** Runs of the driver, continued *)

Section Runs.
Context `{JSBuiltins} {W : Type} `{Remote W}.

Lemma filter_nil_app {A} (f : A → bool) t1 t2 :
  List.filter f (t1 ++ t2) = [] ↔ List.filter f t1 = [] ∧ List.filter f t2 = [].
Proof. rewrite List.filter_app. apply app_nil. Qed.

Lemma no_stderr t args : List.filter is_stderr t = [] → EvError args ∉ t.
Proof.
  induction t as [|e t IH]; simpl; [intros _; apply not_elem_of_nil|].
  destruct e; simpl; try done; intros Hf [Heq|Hin]%elem_of_cons; try done; by apply IH.
Qed.

Lemma banner_quiet endpoint :
  List.filter is_stderr (banner endpoint) = [] ∧ List.filter is_exit (banner endpoint) = [].
Proof. done. Qed.

Lemma fatal_quiet e message :
  read_message e = inr message →
  fatal e = [ EvError [ PStr "âŒ Error:"; PVal message ]; EvExit 1 ] ∧
  fatal_outcome e = Exit 1.
Proof. unfold fatal, fatal_outcome. by intros ->. Qed.

(** How a run ends: it completes without a word on the error stream; or the
    failure of a call, or of a [catch] clause, takes it to the top-level
    [catch] clause. *)
Lemma driver_run_failure h endpoint t o :
  driver_run h endpoint t o →
  (o = Ret tt ∧ List.filter is_stderr t = [] ∧ List.filter is_exit t = []) ∨
  (∃ t0 e,
     t = t0 ++ fatal e ∧ o = fatal_outcome e ∧ caught_after t0 e ∧
     List.filter is_stderr t0 = [] ∧ List.filter is_exit t0 = []).
Proof.
  destruct (banner_quiet endpoint) as [Hb1 Hb2].
  intros [e|p e|p api t1 e Ht1|p api t1 t2 e Ht1 Ht2|p api t1 t2 e Ht1 Ht2|p api t1 t2 Ht1 Ht2];
    unfold WUD_test, KSM_test in *;
    try (pose proof (asset_test_quiet _ _ _ _ _ _ _ _ _ Ht1) as [Hs1 Hx1]);
    try (pose proof (asset_test_quiet _ _ _ _ _ _ _ _ _ Ht2) as [Hs2 Hx2]).
  - right. exists (banner endpoint ++ [ EvCall (ReqWsProvider endpoint); EvThrew e ]), e.
    split_and!; [by rewrite <-!app_assoc|done|constructor|by apply filter_nil_app..].
  - right.
    exists (banner endpoint ++ [ EvCall (ReqWsProvider endpoint); EvReturned (RepProvider p) ] ++
            [ EvAsyncCall (ReqCreate p); EvRejected e ]), e.
    split_and!; [by rewrite <-!app_assoc|done| |by apply filter_nil_app..].
    rewrite app_assoc. by constructor.
  - right. exists (banner endpoint ++ connected endpoint p api ++ t1), e.
    split_and!; [by rewrite <-!app_assoc|done| |rewrite !filter_nil_app; by split_and!..].
    rewrite app_assoc. by eapply asset_test_caught.
  - right. exists (banner endpoint ++ connected endpoint p api ++ t1 ++ t2), e.
    split_and!; [by rewrite <-!app_assoc|done| |rewrite !filter_nil_app; by split_and!..].
    rewrite !app_assoc. by eapply asset_test_caught.
  - right.
    exists (banner endpoint ++ connected endpoint p api ++ t1 ++ t2 ++
            [ EvAsyncCall (ReqDisconnect api); EvRejected e ]), e.
    split_and!; [by rewrite <-!app_assoc|done| |rewrite !filter_nil_app; by split_and!..].
    rewrite !app_assoc. by constructor.
  - left. split; [done|]. rewrite !filter_nil_app. by split_and!.
Qed.

Lemma fails_with_nullish_app t1 t2 :
  fails_with_nullish (t1 ++ t2) = fails_with_nullish t1 || fails_with_nullish t2.
Proof. apply existsb_app. Qed.

(** The top-level [catch] clause throws only when a call has failed with
    [undefined] or [null]. *)
Lemma caught_unreadable t e error :
  caught_after t e → read_message e = inl error → fails_with_nullish t = true.
Proof.
  intros [t0 q e0|t0 q e0 Hq|t0 q e0 error0 Hq Hread0] Hread.
  - rewrite fails_with_nullish_app. apply orb_true_iff. right. by destruct e0.
  - rewrite fails_with_nullish_app. apply orb_true_iff. right. by destruct e0.
  - destruct (read_message_error _ _ Hread0) as [message Hmsg]. congruence.
Qed.

Lemma driver_run_throws h endpoint t e :
  driver_run h endpoint t (Throw e) → fails_with_nullish t = true.
Proof.
  intros Hrun. destruct (driver_run_failure _ _ _ _ Hrun)
    as [(? & _)|(t0 & e0 & -> & Ho & Hcaught & _)]; [done|].
  rewrite fails_with_nullish_app. apply orb_true_iff. left.
  unfold fatal_outcome in Ho. destruct (read_message e0) as [error|] eqn:Hread; [|done].
  by eapply caught_unreadable.
Qed.

Lemma driver_run_starts h endpoint t o :
  driver_run h endpoint t o →
  ∃ rest, t = banner endpoint ++ EvCall (ReqWsProvider endpoint) :: rest.
Proof. intros []; by eexists. Qed.

Lemma reserve_types_app t1 t2 : reserve_types (t1 ++ t2) = reserve_types t1 ++ reserve_types t2.
Proof. unfold reserve_types. by rewrite requests_app, omap_app. Qed.

Lemma attempt_reserve_types api symbol label tx t :
  attempt api symbol label tx t → reserve_types t = [].
Proof.
  intros [origin e message Hread|origin r]; [done|].
  unfold report_events. by destruct (dry_run_error r).
Qed.

Lemma fatal_reserve_types e : reserve_types (fatal e) = [].
Proof. unfold fatal. by destruct (read_message e). Qed.

Lemma built_reserve_type h api location amount fee assetOrder beneficiary args :
  built h location amount fee assetOrder beneficiary args →
  reserve_type_of (ReqTransfer api args) = Some (VStr (reserveType_for location)).
Proof. intros Hb. simpl. by rewrite (transfer_params_reserve _ _ _ _ _ Hb). Qed.

(** The reserve types of one call of [testAssetOrdering]: that of the asset's
    location, once for each construction. *)
Lemma asset_test_reserve_types api h symbol location acct amt fee t o :
  asset_test api h symbol location acct amt fee t o →
  let rt := VStr (reserveType_for location) in
  (o = Ret tt → reserve_types t = [ rt; rt ]) ∧
  (reserve_types t = [ rt ] ∨ reserve_types t = [ rt; rt ]).
Proof.
  intros [args e Hb|args tx origin e error Hb Hread|args1 tx1 t1 args2 e Hb1 Ha1 Hb2
         |args1 tx1 t1 args2 tx2 origin e error Hb1 Ha1 Hb2 Hread
         |args1 tx1 t1 args2 tx2 t2 Hb1 Ha1 Hb2 Ha2] rt;
    try (apply attempt_reserve_types in Ha1);
    try (apply attempt_reserve_types in Ha2);
    try (pose proof (built_reserve_type _ api _ _ _ _ _ _ Hb) as E);
    try (pose proof (built_reserve_type _ api _ _ _ _ _ _ Hb1) as E1);
    try (pose proof (built_reserve_type _ api _ _ _ _ _ _ Hb2) as E2);
    rewrite ?reserve_types_app, ?Ha1, ?Ha2; unfold reserve_types; cbn [requests omap request_of];
    cbn [reserve_type_of] in *; simplify_eq; simpl; rewrite ?E, ?E1, ?E2;
    (split; [done|auto]).
Qed.

End Runs.

Section ReserveTypes.
Context `{JSBuiltins} {W : Type} `{Remote W}.

Lemma driver_run_reserve_types h endpoint t o :
  driver_run h endpoint t o →
  reserve_types t `prefix_of`
    [ VStr "LocalReserve"; VStr "LocalReserve";
      VStr "DestinationReserve"; VStr "DestinationReserve" ] ∧
  (o = Ret tt →
   reserve_types t =
     [ VStr "LocalReserve"; VStr "LocalReserve";
       VStr "DestinationReserve"; VStr "DestinationReserve" ]).
Proof.
  intros [e|p e|p api t1 e Ht1|p api t1 t2 e Ht1 Ht2|p api t1 t2 e Ht1 Ht2|p api t1 t2 Ht1 Ht2];
    unfold WUD_test, KSM_test in *;
    try (apply asset_test_reserve_types in Ht1 as [Hr1 Hc1];
         change (reserveType_for WUD_ASSET_location) with "LocalReserve" in Hr1, Hc1);
    try (apply asset_test_reserve_types in Ht2 as [Hr2 Hc2];
         change (reserveType_for KSM_ASSET_location) with "DestinationReserve" in Hr2, Hc2);
    rewrite ?reserve_types_app, ?fatal_reserve_types;
    change (reserve_types (banner endpoint)) with ([] : list value);
    try change (reserve_types (connected endpoint p api)) with ([] : list value);
    rewrite ?app_nil_l, ?app_nil_r.
  - split; [by eexists|by intros ?%fatal_outcome_not_ret].
  - split; [by eexists|by intros ?%fatal_outcome_not_ret].
  - split; [|by intros ?%fatal_outcome_not_ret]. destruct Hc1 as [-> | ->]; by eexists.
  - rewrite (Hr1 eq_refl). split; [|by intros ?%fatal_outcome_not_ret].
    destruct Hc2 as [-> | ->]; by eexists.
  - rewrite (Hr1 eq_refl), (Hr2 eq_refl). split; [by eexists|by intros ?%fatal_outcome_not_ret].
  - rewrite (Hr1 eq_refl), (Hr2 eq_refl). split; [by eexists|done].
Qed.

End ReserveTypes.

(** X10. The error stream and the exit code of the driver (lines 253-271). A
    run that completes writes nothing to the error stream and does not call
    [process.exit]. Every other run goes to the top-level [catch] clause at
    the failure of a call (or of the [catch] clause of a dry run rejected with
    [undefined] or [null], which throws a [TypeError]); until then nothing is
    written to the error stream. When the [message] of the value caught can
    be read, that message is written to the error stream, in one line, and
    the process ends with code 1: these are the last two events. When it
    cannot, the value being [undefined] or [null], nothing is written and the
    driver throws the [TypeError] of that read. *)
Theorem driver_exit_reports_failure `{JSBuiltins} {W : Type} `{Remote W}
    (env : gmap string string) (w : W) :
  let r := run_driver env w in
  (out r = Ret tt ∧
   List.filter is_stderr (trace r) = [] ∧ List.filter is_exit (trace r) = []) ∨
  (∃ t0 e,
     caught_after t0 e ∧
     List.filter is_stderr t0 = [] ∧ List.filter is_exit t0 = [] ∧
     match read_message e with
     | inr message =>
         out r = Exit 1 ∧
         trace r = t0 ++ [ EvError [ PStr "âŒ Error:"; PVal message ]; EvExit 1 ]
     | inl error =>
         out r = Throw error ∧ trace r = t0
     end).
Proof.
  intros r.
  destruct (driver_run_failure _ _ _ _ (run_driver_shape env w))
    as [?|(t0 & e & Ht & Ho & Hcaught & Hq1 & Hq2)]; [by left|right].
  exists t0, e. split_and!; [done..|]. fold r in Ht, Ho.
  unfold fatal, fatal_outcome in *. destruct (read_message e); [|done].
  by rewrite app_nil_r in Ht.
Qed.

(** X11. Every run of the driver starts with the same five lines (lines
    243-251), printed before anything is asked of the library; the last of
    them names the address that the connection is then opened to, and that
    address is never the empty string. *)
Theorem driver_announces_endpoint `{JSBuiltins} {W : Type} `{Remote W}
    (env : gmap string string) (w : W) :
  let r := run_driver env w in
  let endpoint := POLKADOT_ASSET_HUB_WSS env in
  endpoint ≠ "" ∧
  ∃ rest,
    trace r =
      [ EvLog [ PStr "ğŸ” Polkadot JS API Asset Ordering Bug Demonstration" ];
        EvLog [ PStr (String_repeat "=" 60) ];
        EvLog [ PStr "This script demonstrates that asset order matters in transferAssetsUsingTypeAndThen" ];
        EvLog [ PStr "" ];
        EvLog [ PStr ("ğŸ“¡ Connecting to Polkadot Asset Hub: " +:+ endpoint) ];
        EvCall (ReqWsProvider endpoint) ] ++ rest.
Proof.
  intros r endpoint. split.
  - unfold endpoint, POLKADOT_ASSET_HUB_WSS.
    destruct (env !! "POLKADOT_ASSET_HUB_WSS") as [v|]; [by case_decide|done].
  - destruct (driver_run_starts _ _ _ _ (run_driver_shape env w)) as [rest Hrest].
    exists rest. exact Hrest.
Qed.

(** X12. The last statement of the module (lines 275-280). The demonstration
    runs exactly when the module is the entry point of the program, that is
    when [import.meta.url] is ["file://"] followed by the second command-line
    argument (["undefined"] when there is none); otherwise nothing happens at
    all. When it runs and the driver does not throw, the program is exactly
    the run of the driver. The driver throws only when one of its calls has
    failed with [undefined] or [null]: then the handler attached to the call
    prints what was thrown and ends the process with code 1. So when no call
    fails with [undefined] or [null] (what is thrown being an [Error], say),
    the program is a run of the driver, the handler is never entered and its
    line is never printed. *)
Theorem program_runs_driver_as_entry_point `{JSBuiltins} {W : Type} `{Remote W}
    (import_meta_url : string) (argv : list string) (env : gmap string string) (w : W) :
  let r := run_program import_meta_url argv env w in
  let d := run_driver env w in
  let entry := "file://" +:+ default "undefined" (argv !! 1%nat) in
  (import_meta_url ≠ entry → r = Ran (Ret tt) (State H0 w) []) ∧
  (import_meta_url = entry →
   match out d with
   | Throw e =>
       r = Ran (Exit 1) (final d)
               (trace d ++ [ EvError [ PStr "âŒ Demo failed:"; PErr e ]; EvExit 1 ])
   | _ => r = d
   end) ∧
  (∀ e, out d = Throw e → fails_with_nullish (trace d) = true) ∧
  (fails_with_nullish (trace d) = false →
   (import_meta_url = entry → r = d) ∧
   ∀ x, EvError [ PStr "âŒ Demo failed:"; PErr x ] ∉ trace r).
Proof.
  intros r d entry.
  assert (∀ e, out d = Throw e → fails_with_nullish (trace d) = true) as Hthrows.
  { intros e He. eapply (driver_run_throws _ _ _ e). rewrite <-He. apply run_driver_shape. }
  assert (∀ x, EvError [ PStr "âŒ Demo failed:"; PErr x ] ∉ trace d) as Hd.
  { intros x.
    destruct (driver_run_failure _ _ _ _ (run_driver_shape env w))
      as [(_ & Hq & _)|(t0 & e & Ht & _ & _ & Hq & _)]; [by apply no_stderr|].
    fold d in Ht. rewrite Ht. intros [Hin|Hin]%elem_of_app; [by eapply no_stderr|].
    unfold fatal in Hin. destruct (read_message e); [by apply not_elem_of_nil in Hin|].
    apply elem_of_cons in Hin as [[=]|Hin].
    apply elem_of_cons in Hin as [[=]|Hin]. by apply not_elem_of_nil in Hin. }
  unfold r. rewrite run_program_entry. fold entry d.
  case_decide; split_and!; try done.
  - intros _. by destruct (out d) as [[]| |].
  - intros Hnone. destruct (out d) as [[]|e|c] eqn:Ho; [by split|..|by split].
    rewrite (Hthrows e) in Hnone; done.
  - intros _. split; [done|]. intros x. apply not_elem_of_nil.
Qed.

(** X13. The reserve types the driver asks for: in a complete run the four
    extrinsics are constructed with ["LocalReserve"], ["LocalReserve"] (the two
    transfers of WUD) and ["DestinationReserve"], ["DestinationReserve"] (the
    two of KSM), in this order; a run that stops early has constructed a
    prefix of these. *)
Theorem driver_reserve_types `{JSBuiltins} {W : Type} `{Remote W}
    (env : gmap string string) (w : W) :
  let r := run_driver env w in
  reserve_types (trace r) `prefix_of`
    [ VStr "LocalReserve"; VStr "LocalReserve";
      VStr "DestinationReserve"; VStr "DestinationReserve" ] ∧
  (out r = Ret tt →
   reserve_types (trace r) =
     [ VStr "LocalReserve"; VStr "LocalReserve";
       VStr "DestinationReserve"; VStr "DestinationReserve" ]).
Proof. intros r. eapply driver_run_reserve_types, run_driver_shape. Qed.

(** X14. Whatever its arguments, [createTransferExtrinsic] addresses the
    transfer to one destination, the parachain 1000 of the Kusama consensus
    seen from two levels up (lines 106-111), and passes as custom XCM the
    message [createDummyXCM] builds for the beneficiary (line 153). *)
Theorem createTransferExtrinsic_destination_and_message `{JSBuiltins} {W : Type} `{Remote W}
    (api : Api) (tokenLocation : value) (amount destFee : string)
    (assetOrder : AssetOrder) (beneficiary : string) (s : state W) :
  let r := createTransferExtrinsic api tokenLocation amount destFee assetOrder beneficiary s in
  ∃ destination assets reserveType feeAsset customXcm,
    head (trace r) =
      Some (EvCall (ReqTransfer api [ destination; assets; VStr reserveType; feeAsset;
                                      VStr "LocalReserve"; customXcm; VStr "Unlimited" ])) ∧
    represents (st_heap (final r)) destination
      (LObj [ ("v4", LObj [
        ("parents", lnum 2);
        ("interior", LObj [ ("x2", LArr [
          LObj [ ("GlobalConsensus", LObj [ ("Kusama", LVal VNull) ]) ];
          LObj [ ("parachain", lnum 1000) ] ]) ]) ]) ]) ∧
    represents (st_heap (final r)) customXcm (createDummyXCM_lit beneficiary).
Proof.
  intros r.
  destruct (createTransferExtrinsic_call api tokenLocation amount destFee assetOrder
              beneficiary s) as (args & rt & Hc & _ & _ & Hargs).
  fold r in Hc, Hargs. unfold transfer_params in Hargs.
  apply Forall2_cons_inv_r in Hargs as (destination & ? & Hdest & Hargs & ->).
  apply Forall2_cons_inv_r in Hargs as (assets & ? & _ & Hargs & ->).
  apply Forall2_cons_inv_r in Hargs as (x2 & ? & Hx2 & Hargs & ->).
  apply Forall2_cons_inv_r in Hargs as (feeAsset & ? & _ & Hargs & ->).
  apply Forall2_cons_inv_r in Hargs as (x4 & ? & Hx4 & Hargs & ->).
  apply Forall2_cons_inv_r in Hargs as (customXcm & ? & Hxcm & Hargs & ->).
  apply Forall2_cons_inv_r in Hargs as (x6 & ? & Hx6 & Hargs & ->).
  apply Forall2_nil_inv_r in Hargs as ->.
  inversion Hx2; subst. inversion Hx4; subst. inversion Hx6; subst.
  by eexists _, _, _, _, _.
Qed.

(** ** The standard output *)

Section Transcript.
Context `{JSBuiltins} {W : Type} `{Remote W}.

Lemma stdout_app t1 t2 : stdout (t1 ++ t2) = stdout t1 ++ stdout t2.
Proof. apply omap_app. Qed.

Lemma attempt_stdout api symbol label tx t :
  attempt api symbol label tx t → verdict symbol label (stdout t).
Proof.
  intros [origin e message Hread|origin r]; [apply verdict_exception|].
  destruct r as [[[ok|e]]|e]; by constructor.
Qed.

Lemma asset_test_stdout api h symbol location acct amt fee t :
  asset_test api h symbol location acct amt fee t (Ret tt) →
  ∃ v1 v2,
    verdict symbol "token-first" v1 ∧ verdict symbol "DOT-first" v2 ∧
    stdout t = [ [ PStr (announce_line "1" symbol "token-first") ] ] ++ v1 ++
               [ [ PStr (announce_line "2" symbol "DOT-first") ] ] ++ v2.
Proof.
  intros Ht. inversion Ht as [| | | |args1 tx1 t1 args2 tx2 t2 Hb1 Ha1 Hb2 Ha2]; subst.
  exists (stdout t1), (stdout t2).
  split_and!; [by eapply attempt_stdout..|]. by rewrite !stdout_app.
Qed.

Lemma driver_run_stdout h endpoint t :
  driver_run h endpoint t (Ret tt) →
  ∃ v1 v2 v3 v4,
    verdict "WUD" "token-first" v1 ∧ verdict "WUD" "DOT-first" v2 ∧
    verdict "KSM" "token-first" v3 ∧ verdict "KSM" "DOT-first" v4 ∧
    stdout t =
      stdout (banner endpoint) ++
      [ [ PStr "1. Testing WUD with token-first ordering..." ] ] ++ v1 ++
      [ [ PStr "2. Testing WUD with DOT-first ordering..." ] ] ++ v2 ++
      [ [ PStr "1. Testing KSM with token-first ordering..." ] ] ++ v3 ++
      [ [ PStr "2. Testing KSM with DOT-first ordering..." ] ] ++ v4.
Proof.
  intros Ht. remember (Ret tt) as o eqn:Ho.
  destruct Ht as [e|p e|p api t1 e Ht1|p api t1 t2 e Ht1 Ht2|p api t1 t2 e Ht1 Ht2
                 |p api t1 t2 Ht1 Ht2];
    try (by apply fatal_outcome_not_ret in Ho).
  apply asset_test_stdout in Ht1 as (v1 & v2 & Hv1 & Hv2 & E1).
  apply asset_test_stdout in Ht2 as (v3 & v4 & Hv3 & Hv4 & E2).
  exists v1, v2, v3, v4. split_and!; [done..|].
  rewrite !stdout_app, E1, E2.
  change (stdout (connected endpoint p api)) with ([] : list (list printed)).
  change (stdout [ EvAsyncCall (ReqDisconnect api); EvFulfilled RepUnit ])
    with ([] : list (list printed)).
  by rewrite app_nil_r, <-!app_assoc.
Qed.

End Transcript.

(** X15. The standard output of a complete run of the driver: the five lines
    of the banner; then, for WUD and for KSM, the announcement of the
    token-first test and what is printed for its dry run, the announcement of
    the DOT-first test and what is printed for its dry run. For each dry run
    that is the SUCCESS line, or the FAILED line followed by the error
    details, or the EXCEPTION line with the message. Nothing else is
    printed. *)
Theorem driver_transcript `{JSBuiltins} {W : Type} `{Remote W}
    (env : gmap string string) (w : W) :
  let r := run_driver env w in
  out r = Ret tt →
  ∃ v1 v2 v3 v4,
    verdict "WUD" "token-first" v1 ∧ verdict "WUD" "DOT-first" v2 ∧
    verdict "KSM" "token-first" v3 ∧ verdict "KSM" "DOT-first" v4 ∧
    stdout (trace r) =
      stdout (banner (POLKADOT_ASSET_HUB_WSS env)) ++
      [ [ PStr "1. Testing WUD with token-first ordering..." ] ] ++ v1 ++
      [ [ PStr "2. Testing WUD with DOT-first ordering..." ] ] ++ v2 ++
      [ [ PStr "1. Testing KSM with token-first ordering..." ] ] ++ v3 ++
      [ [ PStr "2. Testing KSM with DOT-first ordering..." ] ] ++ v4.
Proof.
  intros r Ho. apply (driver_run_stdout (st_heap (final r))).
  rewrite <-Ho. apply run_driver_shape.
Qed.

Lemma driver_transcript_witness :
  let failed : DryRunResult := Ok {| executionResult := Err {| toHuman := JStr "Unroutable" |} |} in
  let w := [ Scripted.Accept; Scripted.Accept; Scripted.Accept; Scripted.Accept;
             Scripted.Accept; Scripted.Answer failed;
             Scripted.Accept; Scripted.Refuse "timeout" ] in
  let r := @run_driver Scripted.builtins _ Scripted.remote ∅ w in
  ∃ v1 v2 v3 v4,
    verdict "WUD" "token-first" v1 ∧ verdict "WUD" "DOT-first" v2 ∧
    verdict "KSM" "token-first" v3 ∧ verdict "KSM" "DOT-first" v4 ∧
    stdout (trace r) =
      stdout (banner (POLKADOT_ASSET_HUB_WSS ∅)) ++
      [ [ PStr "1. Testing WUD with token-first ordering..." ] ] ++ v1 ++
      [ [ PStr "2. Testing WUD with DOT-first ordering..." ] ] ++ v2 ++
      [ [ PStr "1. Testing KSM with token-first ordering..." ] ] ++ v3 ++
      [ [ PStr "2. Testing KSM with DOT-first ordering..." ] ] ++ v4.
Proof.
  apply (@driver_transcript Scripted.builtins _ Scripted.remote ∅). reflexivity.
Defined.
